(** * IRanges string utilities: [safe_strexplode] and [strsplit_as_list_of_ints]

    A shallow embedding of [src/strutils.c] and the properties of the
    [.Call] entry points it defines, [svn_time] included.

    Modelling conventions.
    - A C [char] is an [ascii]; a C string is the [list ascii] of the bytes
      before its terminating NUL, and reading [str[i]] at [i = length str]
      yields the terminator (see [char_at]).
    - A [CHARSXP] is its byte content, or the distinguished [NA_STRING].
    - [int] offsets and lengths are [nat] (R strings and vectors are shorter
      than [INT_MAX], so the C arithmetic on them does not wrap); parsed
      values are [Z].  An integer vector is the list of its [int]s; R reads
      the [int] [INT_MIN] in it as a missing value ([NA_INTEGER]).
    - [long int] is 64 bits wide (the LP64 data model) and the [%ld]
      conversion of [sscanf] saturates like [strtol].
    - The two file-level statics [int_ae_buf] and [errmsg_buf] are the fields
      of [globals], threaded explicitly through every function.
    - R's [error()] does not return: an entry point yields an [Rcall], either
      [Rerror] or [Rreturn].  [PROTECT]/[UNPROTECT] have no effect on
      values and are not modelled.
    - What [svn_time] reads from the C library ([time], [tzset] and
      [timezone], [localtime_r]) is a [clock] passed to it; [snprintf] is
      modelled for the conversions of [svn_format]. *)

From Stdlib Require Import ZArith Ascii String List Bool Lia.
From Stdlib Require Import Decimal DecimalString DecimalPos DecimalN.
Import ListNotations.

#[local] Open Scope char_scope.
#[local] Open Scope list_scope.

(** ** Characters and C strings *)

Module Ctype.

(** [isdigit], [isspace] and [isblank] of <ctype.h> in the C locale. *)
Definition isdigit (c : ascii) : bool :=
  let n := nat_of_ascii c in (48 <=? n)%nat && (n <=? 57)%nat.

Definition isspace (c : ascii) : bool :=
  let n := nat_of_ascii c in
  ((9 <=? n)%nat && (n <=? 13)%nat) || (n =? 32)%nat.

Definition isblank (c : ascii) : bool :=
  let n := nat_of_ascii c in (n =? 9)%nat || (n =? 32)%nat.

End Ctype.
Import Ctype.

(** The NUL byte. *)
Definition NUL : ascii := Ascii.zero.

Definition is_nul (c : ascii) : bool := Ascii.eqb c NUL.

(** [str[i]] for a NUL-terminated string whose bytes before the terminator
    are [str]. *)
Definition char_at (str : list ascii) (i : nat) : ascii := nth i str NUL.

(** Bytes of a C string literal. *)
Definition cstr (s : string) : list ascii := list_ascii_of_string s.

(** Number of leading characters of [l] that satisfy [p]: the count of
    iterations of [while (p(str[offset])) offset++]. *)
Fixpoint span_length (p : ascii -> bool) (l : list ascii) : nat :=
  match l with
  | c :: l' => if p c then S (span_length p l') else 0
  | [] => 0
  end.

(** ** The [%ld%n] conversion of [sscanf] *)

Definition INT_MIN : Z := -2147483648.
Definition INT_MAX : Z := 2147483647.
Definition LONG_MIN : Z := -9223372036854775808.
Definition LONG_MAX : Z := 9223372036854775807.

Definition digit_value (c : ascii) : Z := Z.of_nat (nat_of_ascii c) - 48.

(** Reads the maximal run of decimal digits at the head of [l], most
    significant first; returns the value accumulated on [acc] and the number
    of digits read. *)
Fixpoint scan_digits (acc : Z) (l : list ascii) : Z * nat :=
  match l with
  | c :: l' =>
      if isdigit c
      then let (v, k) := scan_digits (10 * acc + digit_value c) l' in (v, S k)
      else (acc, 0)
  | [] => (acc, 0)
  end.

(** Saturation of an out-of-range conversion, as [strtol] does. *)
Definition strtol_clamp (v : Z) : Z :=
  if (v <? LONG_MIN)%Z then LONG_MIN
  else if (LONG_MAX <? v)%Z then LONG_MAX
  else v.

(** The sign consumed by the conversion: whether it is ['-'] and how many
    characters it takes. *)
Definition scan_sign (l : list ascii) : bool * nat :=
  match l with
  | c :: _ =>
      if Ascii.eqb c "-" then (true, 1)
      else if Ascii.eqb c "+" then (false, 1)
      else (false, 0)
  | [] => (false, 0)
  end.

(** The exact (unsaturated) value of the token at the head of [s] and the
    number of characters the conversion consumes: white space, an optional
    sign, then at least one digit.  [None] when no digit follows. *)
Definition scan_token (s : list ascii) : option (Z * nat) :=
  let ws := span_length isspace s in
  let s1 := skipn ws s in
  let (neg, sg) := scan_sign s1 in
  let s2 := skipn sg s1 in
  match s2 with
  | c :: _ =>
      if isdigit c
      then let (v, k) := scan_digits 0 s2 in
           Some (if neg then (- v)%Z else v, ws + sg + k)
      else None
  | [] => None
  end.

(** [ret = sscanf(s, "%ld%n", &val, &n)]: [Some (val, n)] when [ret == 1],
    [None] when the conversion fails ([ret] is 0 or [EOF]). *)
Definition sscanf_ld (s : list ascii) : option (Z * nat) :=
  match scan_token s with
  | Some (v, n) => Some (strtol_clamp v, n)
  | None => None
  end.

(** ** R objects *)

Inductive CHARSXP : Type :=
| NA_STRING
| mkCharLen (bytes : list ascii).

(** [NA_STRING] is a CHARSXP whose content is the two bytes "NA". *)
Definition CHAR (s : CHARSXP) : list ascii :=
  match s with
  | NA_STRING => cstr "NA"
  | mkCharLen bytes => bytes
  end.

Definition LENGTH_CHARSXP (s : CHARSXP) : nat := length (CHAR s).

(** [mkChar(buf)] copies the bytes of [buf] up to its first NUL. *)
Fixpoint until_nul (buf : list ascii) : list ascii :=
  match buf with
  | c :: buf' => if is_nul c then [] else c :: until_nul buf'
  | [] => []
  end.

Definition mkChar (buf : list ascii) : CHARSXP := mkCharLen (until_nul buf).

Definition R_BlankString : CHARSXP := mkCharLen [].

(** A character vector.  The entry points read element 0 of their arguments
    [sep] and [s] without checking their length; they are only called with
    vectors that have one, and the model reads [R_BlankString] otherwise. *)
Definition STRSXP : Type := list CHARSXP.

Definition STRING_ELT (x : STRSXP) (i : nat) : CHARSXP := nth i x R_BlankString.

Inductive SEXP : Type :=
| R_NilValue
| INTSXP (v : list Z).

Definition VECSXP : Type := list SEXP.

(** [a[i] = v] on a vector of fixed length: nothing is written out of
    range. *)
Fixpoint set_elt {A : Type} (a : list A) (i : nat) (v : A) : list A :=
  match a, i with
  | [], _ => []
  | _ :: a', O => v :: a'
  | y :: a', S i' => y :: set_elt a' i' v
  end.

Definition NEW_LIST (n : nat) : VECSXP := repeat R_NilValue n.
Definition SET_VECTOR_ELT (ans : VECSXP) (i : nat) (v : SEXP) : VECSXP :=
  set_elt ans i v.

Definition NEW_CHARACTER (n : nat) : STRSXP := repeat R_BlankString n.
Definition SET_STRING_ELT (ans : STRSXP) (i : nat) (v : CHARSXP) : STRSXP :=
  set_elt ans i v.

(** ** The extendable buffer of ints *)

(** The buffer struct [strutils.c] uses; [IRanges_defines.h] declares it,
    under the name [IntBuf], with these three fields. *)
Record IntAE : Type := mkIntAE {
  buflength : nat;
  elts : list Z;
  nelt : nat
}.

Module AEbufs.

(** Modelled from the spec: [_new_IntAE] is defined outside [strutils.c].  A
    buffer is created with the hinted capacity, [nelt] valid elements, all
    equal to [val]. *)
Definition _new_IntAE (buflength nelt : nat) (val : Z) : IntAE :=
  mkIntAE buflength (repeat val buflength) nelt.

(** Modelled from the spec: the growth policy is defined outside [strutils.c].
    Capacity doubles, with a minimum increment of one element. *)
Definition get_new_buflength (buflength : nat) : nat :=
  if (buflength =? 0)%nat then 1 else 2 * buflength.

(** Modelled from the spec: reallocation is defined outside [strutils.c]; it keeps the existing elements in place
    and adds room after them. *)
Definition IntAE_extend (ae : IntAE) : IntAE :=
  let n := get_new_buflength (buflength ae) in
  mkIntAE n (elts ae ++ repeat 0%Z (n - buflength ae)) (nelt ae).

(** Modelled from the spec: [_IntAE_insert_at] is defined outside [strutils.c].
    The buffer grows when it is full; the valid elements from [at] on move up
    by one, [val] is stored at [at] and the length increases by one.  The
    storage after the valid elements keeps whatever it held. *)
Definition _IntAE_insert_at (ae : IntAE) (at_ : nat) (val : Z) : IntAE :=
  let ae := if (buflength ae <=? nelt ae)%nat then IntAE_extend ae else ae in
  mkIntAE (buflength ae)
          (firstn at_ (elts ae) ++ val
             :: firstn (nelt ae - at_) (skipn at_ (elts ae))
             ++ skipn (S (nelt ae)) (elts ae))
          (S (nelt ae)).

(** Modelled from the spec: [_IntAE_asINTEGER] is defined outside [strutils.c].
    It copies the valid elements out into a fresh integer vector. *)
Definition _IntAE_asINTEGER (ae : IntAE) : SEXP :=
  INTSXP (firstn (nelt ae) (elts ae)).

End AEbufs.
Import AEbufs.

(** ** Static state of [strutils.c] *)

(** The messages [explode_string_as_integer_vector] prints to [errmsg_buf]:
    ["decimal integer expected at char %d"],
    ["out of range integer at char %d"] and
    ["separator expected at char %d"], each with its argument.  All of them
    fit the 200 bytes of the buffer.  [no_message] is the zero-initialised
    buffer. *)
Inductive errmsg : Type :=
| no_message
| decimal_integer_expected_at_char (n : nat)
| out_of_range_integer_at_char (n : nat)
| separator_expected_at_char (n : nat).

Record globals : Type := mkGlobals {
  int_ae_buf : IntAE;
  errmsg_buf : errmsg
}.

Definition set_int_ae_buf (g : globals) (ae : IntAE) : globals :=
  mkGlobals ae (errmsg_buf g).

Definition set_errmsg_buf (g : globals) (m : errmsg) : globals :=
  mkGlobals (int_ae_buf g) m.

Definition set_nelt (ae : IntAE) (n : nat) : IntAE :=
  mkIntAE (buflength ae) (elts ae) n.

(** ** [explode_string_as_integer_vector] *)

(** The [while (str[offset])] loop, one unit of [fuel] per iteration; [None]
    only when the fuel runs out. *)
Fixpoint explode_loop (fuel : nat) (str : list ascii) (sep0 : ascii)
    (offset : nat) (g : globals) : option (SEXP * globals) :=
  match fuel with
  | O => None
  | S fuel' =>
      if is_nul (char_at str offset)
      then Some (_IntAE_asINTEGER (int_ae_buf g), g)
      else
        match sscanf_ld (skipn offset str) with
        | None =>
            Some (R_NilValue,
                  set_errmsg_buf g (decimal_integer_expected_at_char (offset + 1)))
        | Some (val, n) =>
            let offset := offset + n in
            let offset := offset + span_length isblank (skipn offset str) in
            if ((val <? INT_MIN) || (INT_MAX <? val))%Z
            then Some (R_NilValue,
                       set_errmsg_buf g (out_of_range_integer_at_char (offset + 1)))
            else
              let g := set_int_ae_buf g
                         (_IntAE_insert_at (int_ae_buf g) (nelt (int_ae_buf g)) val) in
              if is_nul (char_at str offset)
              then Some (_IntAE_asINTEGER (int_ae_buf g), g)
              else if negb (Ascii.eqb (char_at str offset) sep0)
              then Some (R_NilValue,
                         set_errmsg_buf g (separator_expected_at_char (offset + 1)))
              else explode_loop fuel' str sep0 (offset + 1) g
        end
  end.

(** Every iteration but the last consumes at least two characters, so
    [length str + 1] iterations always suffice. *)
Definition explode_string_as_integer_vector (s : CHARSXP) (sep0 : ascii)
    (g : globals) : option (SEXP * globals) :=
  let str := CHAR s in
  let g := set_int_ae_buf g (set_nelt (int_ae_buf g) 0) in
  explode_loop (S (length str)) str sep0 0 g.

(** ** [strsplit_as_list_of_ints] *)

(** The conditions raised through [error()]:
    ['sep' cannot be a digit, "+" or "-"], ['x' contains NAs] and
    ["in list element %d: %s"] with its two arguments. *)
Inductive Rcondition : Type :=
| sep_cannot_be_a_digit_plus_or_minus
| x_contains_NAs
| in_list_element (i : nat) (msg : errmsg).

Inductive Rcall (A : Type) : Type :=
| Rerror (e : Rcondition)
| Rreturn (a : A).
Arguments Rerror {A} e.
Arguments Rreturn {A} a.

(** The [for (i = 0; i < ans_length; i++)] loop, with [todo] iterations
    left to run. *)
Fixpoint strsplit_loop (todo : nat) (x : STRSXP) (sep0 : ascii) (i : nat)
    (ans : VECSXP) (g : globals) : option (Rcall VECSXP * globals) :=
  match todo with
  | O => Some (Rreturn ans, g)
  | S todo' =>
      let x_elt := STRING_ELT x i in
      match x_elt with
      | NA_STRING => Some (Rerror x_contains_NAs, g)
      | _ =>
          match explode_string_as_integer_vector x_elt sep0 g with
          | None => None
          | Some (R_NilValue, g') =>
              Some (Rerror (in_list_element (i + 1) (errmsg_buf g')), g')
          | Some (ans_elt, g') =>
              strsplit_loop todo' x sep0 (i + 1) (SET_VECTOR_ELT ans i ans_elt) g'
          end
      end
  end.

Definition strsplit_as_list_of_ints (x sep : STRSXP) (g : globals)
    : option (Rcall VECSXP * globals) :=
  let ans_length := length x in
  let sep0 := char_at (CHAR (STRING_ELT sep 0)) 0 in
  if isdigit sep0 || Ascii.eqb sep0 "+" || Ascii.eqb sep0 "-"
  then Some (Rerror sep_cannot_be_a_digit_plus_or_minus, g)
  else
    let g := set_int_ae_buf g (_new_IntAE 0 0 0) in
    strsplit_loop ans_length x sep0 0 (NEW_LIST ans_length) g.

(** ** [safe_strexplode] *)

(** The [for (i = 0; i < s0_length; i++)] loop, with [todo] iterations left
    to run; [buf] is the two-byte scratch array. *)
Fixpoint strexplode_loop (todo : nat) (s0 : CHARSXP) (i : nat)
    (buf : list ascii) (ans : STRSXP) : STRSXP :=
  match todo with
  | O => ans
  | S todo' =>
      let buf := set_elt buf 0 (char_at (CHAR s0) i) in
      strexplode_loop todo' s0 (S i) buf (SET_STRING_ELT ans i (mkChar buf))
  end.

Definition safe_strexplode (s : STRSXP) : STRSXP :=
  let buf := cstr "X" ++ [NUL] in
  let s0 := STRING_ELT s 0 in
  let s0_length := LENGTH_CHARSXP s0 in
  strexplode_loop s0_length s0 0 buf (NEW_CHARACTER s0_length).

(** The state of the statics when the library is loaded. *)
Definition initial_globals : globals :=
  mkGlobals (mkIntAE 0 [] 0) no_message.

(** The result of a call alone, without the final state. *)
Definition strsplit (x sep : STRSXP) (g : globals) : option (Rcall VECSXP) :=
  option_map fst (strsplit_as_list_of_ints x sep g).

Definition Str (s : string) : CHARSXP := mkCharLen (cstr s).

(** * Specification vocabulary *)

(** The struct invariant: [buflength] is the size of the storage and the
    valid elements fit in it. *)
Definition IntAE_ok (ae : IntAE) : Prop :=
  length (elts ae) = buflength ae /\ nelt ae <= buflength ae.

(** The valid elements. *)
Definition contents (ae : IntAE) : list Z := firstn (nelt ae) (elts ae).

(** The result of a parse: the message left in [errmsg_buf], or the
    values. *)
Definition parse_result : Type := errmsg + list Z.

(** The control flow of [explode_loop], collecting the values in a list. *)
Fixpoint parse_loop (fuel : nat) (str : list ascii) (sep0 : ascii)
    (offset : nat) (acc : list Z) : option parse_result :=
  match fuel with
  | O => None
  | S fuel' =>
      if is_nul (char_at str offset) then Some (inr acc)
      else
        match sscanf_ld (skipn offset str) with
        | None => Some (inl (decimal_integer_expected_at_char (offset + 1)))
        | Some (val, n) =>
            let offset := offset + n in
            let offset := offset + span_length isblank (skipn offset str) in
            if ((val <? INT_MIN) || (INT_MAX <? val))%Z
            then Some (inl (out_of_range_integer_at_char (offset + 1)))
            else if is_nul (char_at str offset) then Some (inr (acc ++ [val]))
            else if negb (Ascii.eqb (char_at str offset) sep0)
            then Some (inl (separator_expected_at_char (offset + 1)))
            else parse_loop fuel' str sep0 (offset + 1) (acc ++ [val])
        end
  end.

(** What [explode_loop] returns, against the result of [parse_loop]. *)
Definition agrees (r : option (SEXP * globals)) (p : option parse_result) : Prop :=
  match p, r with
  | None, None => True
  | Some (inl m), Some (R_NilValue, g') =>
      errmsg_buf g' = m /\ IntAE_ok (int_ae_buf g')
  | Some (inr v), Some (INTSXP v', g') => v' = v /\ IntAE_ok (int_ae_buf g')
  | _, _ => False
  end.

(** The parse of a whole string. *)
Definition parse_string (str : list ascii) (sep0 : ascii) : parse_result :=
  match parse_loop (S (length str)) str sep0 0 [] with
  | Some r => r
  | None => inl no_message
  end.

(** The control flow of [strsplit_loop] from element [i] on, each string
    parsed by [parse_string]. *)
Fixpoint strsplit_pure (x : STRSXP) (sep0 : ascii) (i : nat) : Rcall VECSXP :=
  match x with
  | [] => Rreturn []
  | NA_STRING :: _ => Rerror x_contains_NAs
  | mkCharLen bytes :: x' =>
      match parse_string bytes sep0 with
      | inl m => Rerror (in_list_element (i + 1) m)
      | inr v =>
          match strsplit_pure x' sep0 (i + 1) with
          | Rerror e => Rerror e
          | Rreturn l => Rreturn (INTSXP v :: l)
          end
      end
  end.

(** The first character of the separator argument. *)
Definition sep_char (sep : STRSXP) : ascii := char_at (CHAR (STRING_ELT sep 0)) 0.

(** The separators [strsplit_as_list_of_ints] refuses. *)
Definition bad_sep (c : ascii) : bool :=
  isdigit c || Ascii.eqb c "+" || Ascii.eqb c "-".

(** Statics with a newly created buffer. *)
Definition fresh_globals : globals := mkGlobals (_new_IntAE 0 0 0) no_message.

(** What [explode_string_as_integer_vector] returns for [s] when no other
    string was parsed before. *)
Definition explode_alone (s : CHARSXP) (sep0 : ascii) : option SEXP :=
  option_map fst (explode_string_as_integer_vector s sep0 fresh_globals).

(** A valid input string and its values. *)
Definition valid_elt (sep0 : ascii) (e : CHARSXP) (v : list Z) : Prop :=
  e <> NA_STRING /\ explode_alone e sep0 = Some (INTSXP v).

(** The decimal representation of a non-negative integer, as the standard
    library prints it: no sign, no leading zero, ["0"] for zero. *)
Definition decimal (v : Z) : list ascii :=
  cstr (NilZero.string_of_uint (N.to_uint (Z.to_N v))).

(** Strings joined by a separator character. *)
Fixpoint join (c : ascii) (ts : list (list ascii)) : list ascii :=
  match ts with
  | [] => []
  | [t] => t
  | t :: ts' => t ++ c :: join c ts'
  end.

(** Whether the first character of [l], when there is one, satisfies [p]. *)
Definition starts_with (p : ascii -> bool) (l : list ascii) : bool :=
  match l with
  | c :: _ => p c
  | [] => false
  end.

(** The characters of a sequence of decimal digits. *)
Definition digits_of (d : uint) : list ascii := cstr (NilEmpty.string_of_uint d).

(** A token with its padding: white space before it, its value, blanks
    after it. *)
Definition item : Type := list ascii * Z * list ascii.

Definition render_item (it : item) : list ascii :=
  let '(ws, v, bl) := it in ws ++ decimal v ++ bl.

Definition item_value (it : item) : Z := let '(_, v, _) := it in v.

Definition item_ok (it : item) : bool :=
  let '(ws, v, bl) := it in
  forallb isspace ws && ((0 <=? v)%Z && (v <=? INT_MAX)%Z) && forallb isblank bl.

(** The offset the loop has reached once it has read a token of [n]
    characters at [offset] and skipped the blanks after it. *)
Definition after_token (str : list ascii) (offset n : nat) : nat :=
  offset + n + span_length isblank (skipn (offset + n) str).

(** [token_position str sep0 offset acc]: the [while] loop of
    [explode_string_as_integer_vector] on [str] reaches its head with this
    [offset], having stored the values [acc].  That is the case at the start
    of the string and after each separator that follows an accepted token. *)
Inductive token_position (str : list ascii) (sep0 : ascii) : nat -> list Z -> Prop :=
| tp_start : token_position str sep0 0 []
| tp_next offset acc val n :
    token_position str sep0 offset acc ->
    is_nul (char_at str offset) = false ->
    sscanf_ld (skipn offset str) = Some (val, n) ->
    ((val <? INT_MIN) || (INT_MAX <? val))%Z = false ->
    is_nul (char_at str (after_token str offset n)) = false ->
    Ascii.eqb (char_at str (after_token str offset n)) sep0 = true ->
    token_position str sep0 (after_token str offset n + 1) (acc ++ [val]).

(** * Vocabulary of the further properties *)

(** A value that fits an [int]. *)
Definition in_int_range (v : Z) : Prop := (INT_MIN <= v <= INT_MAX)%Z.

(** An integer vector, all of whose elements fit an [int]. *)
Definition is_int_vector (e : SEXP) : Prop :=
  exists v, e = INTSXP v /\ Forall in_int_range v.

(** [m] is one of the three parse messages, with character position [n]. *)
Definition is_parse_message (m : errmsg) (n : nat) : Prop :=
  m = decimal_integer_expected_at_char n \/
  m = out_of_range_integer_at_char n \/
  m = separator_expected_at_char n.

(** What [explode_string_as_integer_vector] returns for [s], and the message
    it leaves in [errmsg_buf], when no other string was parsed before. *)
Definition explode_alone_msg (s : CHARSXP) (sep0 : ascii) : option (SEXP * errmsg) :=
  option_map (fun r => (fst r, errmsg_buf (snd r)))
    (explode_string_as_integer_vector s sep0 fresh_globals).

(** The sign a token is written with. *)
Inductive sign : Type := no_sign | plus_sign | minus_sign.

Definition sign_text (s : sign) : list ascii :=
  match s with
  | no_sign => []
  | plus_sign => ["+"]
  | minus_sign => ["-"]
  end.

(** A written integer: its sign, a number of leading zeros and its
    magnitude. *)
Definition token : Type := sign * nat * Z.

Definition token_text (t : token) : list ascii :=
  let '(s, k, m) := t in sign_text s ++ repeat "0" k ++ decimal m.

Definition token_value (t : token) : Z :=
  let '(s, _, m) := t in
  match s with
  | minus_sign => (- m)%Z
  | _ => m
  end.

Definition token_ok (t : token) : bool :=
  let '(_, _, m) := t in
  ((0 <=? m) && (INT_MIN <=? token_value t) && (token_value t <=? INT_MAX))%Z.

(** R's [NA_integer_] is the [int] [INT_MIN]: an element of an integer
    vector that holds this value is a missing value to R. *)
Definition NA_INTEGER : Z := INT_MIN.

(** A written integer whose value fits an [int] and is not the one R reads
    as missing. *)
Definition token_is_int (t : token) : bool :=
  token_ok t && negb (token_value t =? NA_INTEGER)%Z.

(** [text] is read by the conversion as the value [v], which fits an [int],
    whatever non-digit follows it. *)
Definition readable (text : list ascii) (v : Z) : Prop :=
  is_nul (char_at text 0) = false /\ in_int_range v /\
  forall rest, starts_with isdigit rest = false ->
               scan_token (text ++ rest) = Some (v, length text).

(** * [get_svn_time] and [svn_time] *)

(** The fields of [struct tm]. *)
Record tm : Type := mk_tm {
  tm_sec : Z;
  tm_min : Z;
  tm_hour : Z;
  tm_mday : Z;
  tm_mon : Z;
  tm_year : Z;
  tm_wday : Z;
  tm_yday : Z;
  tm_isdst : Z
}.

(** What the two functions read from the C library: the value of
    [time(NULL)], the global [timezone] once [tzset()] has run, and
    [localtime_r]. *)
Record clock : Type := mk_clock {
  time_NULL : Z;
  timezone : Z;
  localtime_r : Z -> tm
}.

(** The [printf] conversions of [svn_format].  A field narrower than its
    width is padded with zeros between the sign and the digits; a wider one
    is printed in full. *)
Definition zero_pad (width : nat) (sign digits : list ascii) : list ascii :=
  sign ++ repeat "0" (width - length sign - length digits) ++ digits.

(** [%d] *)
Definition printf_d (v : Z) : list ascii :=
  zero_pad 0 (if (v <? 0)%Z then ["-"] else []) (decimal (Z.abs v)).

(** [%02d] *)
Definition printf_02d (v : Z) : list ascii :=
  zero_pad 2 (if (v <? 0)%Z then ["-"] else []) (decimal (Z.abs v)).

(** [%+03d] *)
Definition printf_plus03d (v : Z) : list ascii :=
  zero_pad 3 (if (v <? 0)%Z then ["-"] else ["+"]) (decimal (Z.abs v)).

Definition wday2str : list (list ascii) :=
  map cstr ["Sun"; "Mon"; "Tue"; "Wed"; "Thu"; "Fri"; "Sat"]%string.

Definition mon2str : list (list ascii) :=
  map cstr ["Jan"; "Feb"; "Mar"; "Apr"; "May"; "Jun";
            "Jul"; "Aug"; "Sep"; "Oct"; "Nov"; "Dec"]%string.

(** [a[i]] for an array of strings.  Reading outside the array is undefined
    in C; the model reads an empty string there. *)
Definition array_get (a : list (list ascii)) (i : Z) : list ascii :=
  if (i <? 0)%Z then [] else nth (Z.to_nat i) a [].

(** The text [svn_format] produces from its eleven arguments:
    ["%d-%02d-%02d %02d:%02d:%02d %+03d00 (%s, %02d %s %d)"]. *)
Definition svn_format (a1 a2 a3 a4 a5 a6 a7 : Z) (a8 : list ascii) (a9 : Z)
    (a10 : list ascii) (a11 : Z) : list ascii :=
  printf_d a1 ++ "-" :: printf_02d a2 ++ "-" :: printf_02d a3 ++ " "
    :: printf_02d a4 ++ ":" :: printf_02d a5 ++ ":" :: printf_02d a6 ++ " "
    :: printf_plus03d a7 ++ cstr "00 (" ++ a8 ++ cstr ", " ++ printf_02d a9
    ++ " " :: a10 ++ " " :: printf_d a11 ++ [")"].

(** [n = snprintf(out, out_size, ...)] of a text: [n] is the length of the
    whole text, [out] receives at most [out_size - 1] characters of it. *)
Definition snprintf (out_size : nat) (text : list ascii) : nat * list ascii :=
  (length text, firstn (out_size - 1) text).

(** The offset from UTC in hours that [get_svn_time] prints.  The division
    of C truncates towards zero. *)
Definition svn_utc_offset (ck : clock) (result : tm) : Z :=
  let utc_offset := (- (Z.quot (timezone ck) 3600))%Z in
  if (0 <? tm_isdst result)%Z then (utc_offset + 1)%Z else utc_offset.

(** The text [get_svn_time] formats for the time [t]. *)
Definition svn_text (ck : clock) (t : Z) : list ascii :=
  let result := localtime_r ck t in
  svn_format
    (tm_year result + 1900)
    (tm_mon result + 1)
    (tm_mday result)
    (tm_hour result)
    (tm_min result)
    (tm_sec result)
    (svn_utc_offset ck result)
    (array_get wday2str (tm_wday result))
    (tm_mday result)
    (array_get mon2str (tm_mon result))
    (tm_year result + 1900).

(** Returns the [int] result and the content of [out].  The [int]
    arithmetic is done in [Z]: the fields of a [struct tm] and [timezone] are
    far from the bounds of an [int]. *)
Definition get_svn_time (ck : clock) (t : Z) (out_size : nat) : Z * list ascii :=
  let (n, out) := snprintf out_size (svn_text ck t) in
  (if (out_size <=? n)%nat then (-1)%Z else 0%Z, out).

(** The conditions [svn_time] raises through [error()]:
    ["IRanges internal error in svn_time(): time(NULL) failed"] and
    ["IRanges internal error in svn_time(): get_svn_time() failed"]. *)
Inductive svn_condition : Type :=
| time_NULL_failed
| get_svn_time_failed.

(** [mkString(buf)] is a character vector of one element, [mkChar(buf)]. *)
Definition mkString (buf : list ascii) : STRSXP := [mkChar buf].

Definition svn_time (ck : clock) : svn_condition + STRSXP :=
  let t := time_NULL ck in
  if (t =? -1)%Z then inl time_NULL_failed
  else
    let (r, buf) := get_svn_time ck t 45 in
    if negb (r =? 0)%Z then inl get_svn_time_failed
    else inr (mkString buf).

(** The ranges [localtime_r] keeps the fields of its result in. *)
Definition tm_in_range (r : tm) : Prop :=
  (0 <= tm_sec r <= 60 /\ 0 <= tm_min r <= 59 /\ 0 <= tm_hour r <= 23 /\
   1 <= tm_mday r <= 31 /\ 0 <= tm_mon r <= 11 /\ 0 <= tm_wday r <= 6)%Z.

(** No byte of [l] is NUL. *)
Definition no_nul (l : list ascii) : bool := forallb (fun c => negb (is_nul c)) l.

(** The clock of the example in the header comment of [svn_time]: Friday 7
    December 2007, 10:03:15, eight hours west of UTC, no daylight saving. *)
Definition clock_2007 : clock :=
  mk_clock 1197050595 28800 (fun _ => mk_tm 15 3 10 7 11 107 5 340 0).

(** A clock on Saturday 1 January 10000, 00:00:00 UTC. *)
Definition clock_10000 : clock :=
  mk_clock 253402300800 0 (fun _ => mk_tm 0 0 0 1 0 8100 6 0 0).

(** * Properties *)

(** ** The buffer *)

Lemma new_IntAE_ok : IntAE_ok (_new_IntAE 0 0 0).
Proof. split; simpl; auto. Qed.

Lemma set_nelt_0_ok ae : IntAE_ok ae -> IntAE_ok (set_nelt ae 0).
Proof. intros [H _]. split; simpl; [exact H | lia]. Qed.

Lemma extend_room ae :
  IntAE_ok ae ->
  let ae' := if (buflength ae <=? nelt ae)%nat then IntAE_extend ae else ae in
  length (elts ae') = buflength ae' /\ nelt ae' < buflength ae' /\
  nelt ae' = nelt ae /\ contents ae' = contents ae.
Proof.
  intros [Hlen Hn]. destruct (Nat.leb_spec (buflength ae) (nelt ae)) as [Hfull|Hroom]; simpl.
  - unfold IntAE_extend, contents, get_new_buflength; simpl.
    rewrite length_app, repeat_length.
    destruct (Nat.eqb_spec (buflength ae) 0) as [H0|H0].
    + repeat split; try lia.
      rewrite firstn_app. replace (nelt ae - length (elts ae)) with 0 by lia.
      simpl. now rewrite app_nil_r.
    + repeat split; try lia.
      rewrite firstn_app. replace (nelt ae - length (elts ae)) with 0 by lia.
      simpl. now rewrite app_nil_r.
  - repeat split; auto.
Qed.

(** Appending keeps the invariant and adds the value after the valid
    elements, whatever the storage held beyond them. *)
Lemma insert_at_end ae v :
  IntAE_ok ae ->
  IntAE_ok (_IntAE_insert_at ae (nelt ae) v) /\
  contents (_IntAE_insert_at ae (nelt ae) v) = contents ae ++ [v].
Proof.
  intros Hok. unfold _IntAE_insert_at.
  destruct (extend_room ae Hok) as (Hlen & Hlt & Hn & Hc).
  set (ae' := if (buflength ae <=? nelt ae)%nat then IntAE_extend ae else ae) in *.
  rewrite <- Hn, <- Hc. clearbody ae'. clear Hok Hn Hc ae.
  unfold IntAE_ok, contents; cbn [buflength elts nelt].
  rewrite Nat.sub_diag, firstn_O. cbn [app].
  assert (Hf : length (firstn (nelt ae') (elts ae')) = nelt ae')
    by (rewrite length_firstn; lia).
  assert (Hl : length (firstn (nelt ae') (elts ae') ++ [v]) = S (nelt ae'))
    by (rewrite length_app, Hf; simpl; lia).
  change (v :: [] ++ skipn (S (nelt ae')) (elts ae'))
    with ([v] ++ skipn (S (nelt ae')) (elts ae')).
  rewrite app_assoc.
  repeat split.
  - rewrite length_app, Hl, length_skipn. lia.
  - lia.
  - rewrite firstn_app, Hl, Nat.sub_diag, firstn_O, app_nil_r.
    apply firstn_all2. lia.
Qed.

(** ** The parse of one string, without the buffer *)

Lemma explode_loop_agrees fuel str sep0 :
  forall offset g,
    IntAE_ok (int_ae_buf g) ->
    agrees (explode_loop fuel str sep0 offset g)
           (parse_loop fuel str sep0 offset (contents (int_ae_buf g))).
Proof.
  induction fuel as [|fuel IH]; intros offset g Hok; simpl; [exact I|].
  destruct (is_nul (char_at str offset)).
  { simpl. split; [reflexivity | exact Hok]. }
  destruct (sscanf_ld (skipn offset str)) as [[val n]|].
  2:{ simpl. split; [reflexivity | exact Hok]. }
  destruct ((val <? INT_MIN) || (INT_MAX <? val))%Z.
  { simpl. split; [reflexivity | exact Hok]. }
  destruct (insert_at_end (int_ae_buf g) val Hok) as [Hok' Hc].
  set (off := offset + n + span_length isblank (skipn (offset + n) str)).
  destruct (is_nul (char_at str off)).
  { simpl. split; [exact Hc | exact Hok']. }
  destruct (negb (Ascii.eqb (char_at str off) sep0)).
  { simpl. split; [reflexivity | exact Hok']. }
  rewrite <- Hc. apply IH. exact Hok'.
Qed.

(** ** Termination of the scan *)

Lemma char_at_lt str i : is_nul (char_at str i) = false -> i < length str.
Proof.
  intros H. destruct (Nat.lt_ge_cases i (length str)) as [Hlt|Hge]; [exact Hlt|].
  unfold char_at in H. rewrite nth_overflow in H by exact Hge. discriminate.
Qed.

Lemma scan_digits_count c l acc :
  isdigit c = true -> 1 <= snd (scan_digits acc (c :: l)).
Proof.
  intros Hc. cbn [scan_digits]. rewrite Hc.
  destruct (scan_digits (10 * acc + digit_value c) l). simpl. lia.
Qed.

Lemma scan_token_pos s v n : scan_token s = Some (v, n) -> 1 <= n.
Proof.
  unfold scan_token.
  destruct (scan_sign (skipn (span_length isspace s) s)) as [neg sg].
  destruct (skipn sg (skipn (span_length isspace s) s)) as [|c l]; [discriminate|].
  destruct (isdigit c) eqn:Hc; [|discriminate].
  pose proof (scan_digits_count c l 0 Hc) as Hk.
  destruct (scan_digits 0 (c :: l)) as [w k]. simpl in Hk.
  intros H. injection H as _ Hn. lia.
Qed.

Lemma sscanf_ld_pos s v n : sscanf_ld s = Some (v, n) -> 1 <= n.
Proof.
  unfold sscanf_ld. destruct (scan_token s) as [[w k]|] eqn:Ht; [|discriminate].
  intros H. injection H as _ Hn. subst k. eapply scan_token_pos; eassumption.
Qed.

(** The loop ends within [length str - offset + 1] iterations. *)
Lemma parse_loop_terminates str sep0 :
  forall fuel offset acc,
    length str <= fuel + offset ->
    exists r, parse_loop (S fuel) str sep0 offset acc = Some r.
Proof.
  induction fuel as [|fuel IH]; intros offset acc Hlen.
  - simpl. unfold char_at. rewrite nth_overflow by lia. simpl. eauto.
  - cbn [parse_loop].
    destruct (is_nul (char_at str offset)); [eauto|].
    destruct (sscanf_ld (skipn offset str)) as [[val n]|] eqn:Hs; [|eauto].
    apply sscanf_ld_pos in Hs.
    destruct ((val <? INT_MIN) || (INT_MAX <? val))%Z; [eauto|].
    set (off := offset + n + span_length isblank (skipn (offset + n) str)).
    destruct (is_nul (char_at str off)); [eauto|].
    destruct (negb (Ascii.eqb (char_at str off) sep0)); [eauto|].
    apply IH. unfold off. lia.
Qed.

(** More fuel does not change a result. *)
Lemma parse_loop_S str sep0 :
  forall fuel offset acc r,
    parse_loop fuel str sep0 offset acc = Some r ->
    parse_loop (S fuel) str sep0 offset acc = Some r.
Proof.
  induction fuel as [|fuel IH]; intros offset acc r; [discriminate|].
  intros H. cbn [parse_loop] in H. cbn [parse_loop].
  destruct (is_nul (char_at str offset)); [exact H|].
  destruct (sscanf_ld (skipn offset str)) as [[val n]|]; [|exact H].
  destruct ((val <? INT_MIN) || (INT_MAX <? val))%Z; [exact H|].
  set (off := offset + n + span_length isblank (skipn (offset + n) str)) in *.
  destruct (is_nul (char_at str off)); [exact H|].
  destruct (negb (Ascii.eqb (char_at str off) sep0)); [exact H|].
  apply IH. exact H.
Qed.

Lemma parse_loop_le str sep0 fuel fuel' offset acc r :
  fuel <= fuel' ->
  parse_loop fuel str sep0 offset acc = Some r ->
  parse_loop fuel' str sep0 offset acc = Some r.
Proof.
  induction 1 as [|fuel' _ IH]; intros H; [exact H|].
  apply parse_loop_S. now apply IH.
Qed.

Lemma parse_string_eq str sep0 :
  parse_loop (S (length str)) str sep0 0 [] = Some (parse_string str sep0).
Proof.
  unfold parse_string.
  destruct (parse_loop_terminates str sep0 (length str) 0 []) as [r Hr]; [lia|].
  now rewrite Hr.
Qed.

Lemma parse_string_fuel str sep0 fuel r :
  parse_loop fuel str sep0 0 [] = Some r -> parse_string str sep0 = r.
Proof.
  intros H. pose proof (parse_string_eq str sep0) as E.
  apply parse_loop_le with (fuel' := Nat.max fuel (S (length str))) in H; [|lia].
  apply parse_loop_le with (fuel' := Nat.max fuel (S (length str))) in E; [|lia].
  congruence.
Qed.

Lemma explode_agrees s sep0 g :
  IntAE_ok (int_ae_buf g) ->
  agrees (explode_string_as_integer_vector s sep0 g)
         (Some (parse_string (CHAR s) sep0)).
Proof.
  intros Hok. unfold explode_string_as_integer_vector.
  rewrite <- parse_string_eq.
  apply (explode_loop_agrees (S (length (CHAR s))) (CHAR s) sep0 0
           (set_int_ae_buf g (set_nelt (int_ae_buf g) 0))).
  simpl. apply set_nelt_0_ok, Hok.
Qed.

(** ** The batch, without the buffer *)

Lemma set_elt_length {A} (a : list A) i v : length (set_elt a i v) = length a.
Proof.
  revert i; induction a as [|y a IH]; intros [|i]; simpl; auto.
Qed.

Lemma firstn_set_elt {A} (a : list A) i v :
  i < length a -> firstn (S i) (set_elt a i v) = firstn i a ++ [v].
Proof.
  revert i; induction a as [|y a IH]; intros [|i] H; simpl in *; try lia; auto.
  f_equal. apply IH. lia.
Qed.

Lemma strsplit_loop_pure sep0 :
  forall suffix prefix ans g,
    IntAE_ok (int_ae_buf g) ->
    length ans = length prefix + length suffix ->
    exists g',
      strsplit_loop (length suffix) (prefix ++ suffix) sep0 (length prefix) ans g
      = Some (match strsplit_pure suffix sep0 (length prefix) with
              | Rerror e => Rerror e
              | Rreturn l => Rreturn (firstn (length prefix) ans ++ l)
              end, g').
Proof.
  induction suffix as [|e suffix IH]; intros prefix ans g Hok Hlen.
  - simpl in *. exists g. rewrite app_nil_r, firstn_all2 by lia. reflexivity.
  - cbn [length strsplit_loop]. unfold STRING_ELT. rewrite nth_middle.
    destruct e as [|bytes]; [exists g; reflexivity|].
    pose proof (explode_agrees (mkCharLen bytes) sep0 g Hok) as Ha.
    cbn [CHAR] in Ha. cbn [strsplit_pure].
    destruct (explode_string_as_integer_vector (mkCharLen bytes) sep0 g)
      as [[[|v'] g']|]; destruct (parse_string bytes sep0) as [m|v];
      simpl in Ha; try contradiction; destruct Ha as [E Hok'].
    + exists g'. now rewrite E.
    + subst v'.
      destruct (IH (prefix ++ [mkCharLen bytes])
                  (SET_VECTOR_ELT ans (length prefix) (INTSXP v)) g' Hok')
        as [g'' Hg''].
      { unfold SET_VECTOR_ELT. rewrite set_elt_length, length_app.
        simpl in *. lia. }
      exists g''. rewrite <- app_assoc in Hg''. simpl in Hg''.
      rewrite length_app in Hg''. simpl in Hg''. rewrite Hg''.
      destruct (strsplit_pure suffix sep0 (length prefix + 1)); [reflexivity|].
      unfold SET_VECTOR_ELT. rewrite Nat.add_1_r, firstn_set_elt by (simpl in Hlen; lia).
      now rewrite <- app_assoc.
Qed.

(** A call with an accepted separator returns what [strsplit_pure] does,
    whatever the statics held. *)
Lemma strsplit_spec x sep g :
  bad_sep (sep_char sep) = false ->
  strsplit x sep g = Some (strsplit_pure x (sep_char sep) 0).
Proof.
  intros Hsep. unfold strsplit, strsplit_as_list_of_ints.
  fold (sep_char sep). unfold bad_sep in Hsep. rewrite Hsep.
  destruct (strsplit_loop_pure (sep_char sep) x [] (NEW_LIST (length x))
              (set_int_ae_buf g (_new_IntAE 0 0 0))) as [g' Hg'].
  - apply new_IntAE_ok.
  - unfold NEW_LIST. now rewrite repeat_length.
  - simpl in Hg'. rewrite Hg'. simpl.
    now destruct (strsplit_pure x (sep_char sep) 0).
Qed.

(** ** Elements parsed on their own *)

Lemma valid_elt_parse sep0 e v :
  valid_elt sep0 e v ->
  exists bytes, e = mkCharLen bytes /\ parse_string bytes sep0 = inr v.
Proof.
  intros [Hna Hex]. destruct e as [|bytes]; [contradiction|].
  exists bytes. split; [reflexivity|].
  pose proof (explode_agrees (mkCharLen bytes) sep0 fresh_globals new_IntAE_ok) as Ha.
  unfold explode_alone in Hex. cbn [CHAR] in Ha.
  destruct (explode_string_as_integer_vector (mkCharLen bytes) sep0 fresh_globals)
    as [[r g']|]; [|discriminate].
  simpl in Hex. injection Hex as ->.
  destruct (parse_string bytes sep0) as [m|w]; simpl in Ha; [contradiction|].
  destruct Ha as [-> _]. reflexivity.
Qed.

Lemma strsplit_pure_valid sep0 x vs :
  Forall2 (valid_elt sep0) x vs ->
  forall i, strsplit_pure x sep0 i = Rreturn (map INTSXP vs).
Proof.
  induction 1 as [|e v x vs He _ IH]; intros i; [reflexivity|].
  destruct (valid_elt_parse _ _ _ He) as (bytes & -> & Hp).
  simpl. now rewrite Hp, IH.
Qed.


(** ** [safe_strexplode], element by element *)

Lemma set_elt_buf b c : set_elt [b; NUL] 0 c = [c; NUL].
Proof. reflexivity. Qed.

Lemma strexplode_loop_map s0 :
  forall suffix prefix b ans,
    CHAR s0 = prefix ++ suffix ->
    length ans = length prefix + length suffix ->
    strexplode_loop (length suffix) s0 (length prefix) [b; NUL] ans
    = firstn (length prefix) ans ++ map (fun c => mkChar [c; NUL]) suffix.
Proof.
  induction suffix as [|c suffix IH]; intros prefix b ans Hs Hlen.
  - simpl in *. rewrite app_nil_r, firstn_all2 by lia. reflexivity.
  - cbn [length strexplode_loop]. rewrite set_elt_buf.
    unfold char_at. rewrite Hs, nth_middle.
    replace (S (length prefix)) with (length (prefix ++ [c]))
      by (rewrite length_app; simpl; lia).
    rewrite IH.
    + rewrite length_app. simpl length. rewrite Nat.add_1_r.
      unfold SET_STRING_ELT. rewrite firstn_set_elt by (simpl in Hlen; lia).
      rewrite <- app_assoc. reflexivity.
    + rewrite Hs, <- app_assoc. reflexivity.
    + unfold SET_STRING_ELT. rewrite set_elt_length, length_app. simpl in *. lia.
Qed.

Lemma safe_strexplode_map s0 more :
  safe_strexplode (s0 :: more) = map (fun c => mkChar [c; NUL]) (CHAR s0).
Proof.
  unfold safe_strexplode. cbn [STRING_ELT nth]. unfold LENGTH_CHARSXP.
  apply (strexplode_loop_map s0 (CHAR s0) [] "X"
           (NEW_CHARACTER (length (CHAR s0)))).
  - reflexivity.
  - unfold NEW_CHARACTER. now rewrite repeat_length.
Qed.

Lemma mkChar_byte c : c <> NUL -> mkChar [c; NUL] = mkCharLen [c].
Proof.
  intros Hc. unfold mkChar. cbn [until_nul].
  unfold is_nul at 1. destruct (Ascii.eqb_spec c NUL) as [E|_]; [contradiction|].
  reflexivity.
Qed.

(** ** Decimal tokens *)

Lemma decimal_digits v : decimal v = digits_of (N.to_uint (Z.to_N v)).
Proof.
  unfold decimal, digits_of, NilZero.string_of_uint.
  destruct (N.to_uint (Z.to_N v)) eqn:E; try reflexivity.
  exfalso. destruct (Z.to_N v) as [|p]; [discriminate|].
  simpl in E. exact (DecimalPos.Unsigned.to_uint_nonnil p E).
Qed.

Lemma of_uint_cons d :
  (Pos.of_uint d
   = DecimalPos.Unsigned.hd d * 10 ^ DecimalPos.Unsigned.usize (DecimalPos.Unsigned.tl d)
     + Pos.of_uint (DecimalPos.Unsigned.tl d))%N.
Proof.
  rewrite !DecimalPos.Unsigned.of_uint_alt.
  destruct d; unfold Decimal.rev; cbn [Decimal.revapp DecimalPos.Unsigned.tl DecimalPos.Unsigned.hd];
    [reflexivity | ..];
    rewrite DecimalPos.Unsigned.of_lu_revapp; cbn [DecimalPos.Unsigned.of_lu];
    unfold Decimal.rev; lia.
Qed.

Lemma scan_digits_cons c l acc :
  isdigit c = true ->
  scan_digits acc (c :: l)
  = let (v, k) := scan_digits (10 * acc + digit_value c) l in (v, S k).
Proof. intros H. cbn [scan_digits]. now rewrite H. Qed.

Lemma scan_digits_stop l acc :
  starts_with isdigit l = false -> scan_digits acc l = (acc, 0).
Proof. destruct l as [|c l]; simpl; [reflexivity|]. now intros ->. Qed.

Ltac scan_one_digit IH top :=
  unfold digits_of; cbn [NilEmpty.string_of_uint cstr list_ascii_of_string];
  repeat match goal with
  | |- context [list_ascii_of_string (NilEmpty.string_of_uint ?x)] =>
      change (list_ascii_of_string (NilEmpty.string_of_uint x)) with (digits_of x)
  end;
  rewrite <- app_comm_cons;
  rewrite scan_digits_cons by reflexivity;
  match goal with
  | |- context [scan_digits ?a (?l ++ ?r)] =>
      rewrite (IH a r) by assumption
  end;
  cbn [length]; f_equal;
  rewrite (of_uint_cons top);
  cbn [DecimalPos.Unsigned.hd DecimalPos.Unsigned.tl DecimalPos.Unsigned.usize];
  rewrite N.pow_succ_r', !N2Z.inj_add, !N2Z.inj_mul;
  unfold digit_value; cbn [nat_of_ascii]; simpl Z.of_N; simpl Z.of_nat; ring.

(** Scanning the digits of [d] accumulates its value. *)
Lemma scan_digits_of d :
  forall acc rest,
    starts_with isdigit rest = false ->
    scan_digits acc (digits_of d ++ rest)
    = ((acc * Z.of_N (10 ^ DecimalPos.Unsigned.usize d) + Z.of_N (Pos.of_uint d))%Z,
       length (digits_of d)).
Proof.
  induction d as [|d IH|d IH|d IH|d IH|d IH|d IH|d IH|d IH|d IH|d IH];
    intros acc rest Hrest.
  - cbn. rewrite scan_digits_stop by assumption. f_equal. lia.
  - scan_one_digit IH (D0 d).
  - scan_one_digit IH (D1 d).
  - scan_one_digit IH (D2 d).
  - scan_one_digit IH (D3 d).
  - scan_one_digit IH (D4 d).
  - scan_one_digit IH (D5 d).
  - scan_one_digit IH (D6 d).
  - scan_one_digit IH (D7 d).
  - scan_one_digit IH (D8 d).
  - scan_one_digit IH (D9 d).
Qed.

Lemma isdigit_props c :
  isdigit c = true ->
  isspace c = false /\ isblank c = false /\ is_nul c = false /\
  Ascii.eqb c "-" = false /\ Ascii.eqb c "+" = false.
Proof.
  destruct c as [[] [] [] [] [] [] [] []]; vm_compute; intros H;
    try discriminate H; repeat split.
Qed.

Lemma isspace_props c : isspace c = true -> is_nul c = false.
Proof.
  destruct c as [[] [] [] [] [] [] [] []]; vm_compute; intros H;
    try discriminate H; reflexivity.
Qed.

Lemma isblank_props c : isblank c = true -> isdigit c = false /\ is_nul c = false.
Proof.
  destruct c as [[] [] [] [] [] [] [] []]; vm_compute; intros H;
    try discriminate H; split; reflexivity.
Qed.

Lemma span_length_app p ws l :
  forallb p ws = true -> starts_with p l = false ->
  span_length p (ws ++ l) = length ws.
Proof.
  intros Hws Hl. induction ws as [|c ws IH]; simpl in *.
  - destruct l as [|c l]; simpl in *; [reflexivity | now rewrite Hl].
  - apply andb_prop in Hws as [-> Hws]. now rewrite IH.
Qed.

Lemma skipn_app_length {A} (pre l : list A) : skipn (length pre) (pre ++ l) = l.
Proof. induction pre; simpl; auto. Qed.

Lemma char_at_app pre l i : char_at (pre ++ l) (length pre + i) = char_at l i.
Proof. unfold char_at. apply app_nth2_plus. Qed.

Lemma digits_of_head d : d <> Nil -> starts_with isdigit (digits_of d) = true.
Proof. destruct d; intros H; try reflexivity. contradiction. Qed.

Lemma decimal_head v : starts_with isdigit (decimal v) = true.
Proof.
  rewrite decimal_digits. apply digits_of_head.
  destruct (Z.to_N v) as [|p]; [discriminate|].
  apply DecimalPos.Unsigned.to_uint_nonnil.
Qed.

Lemma scan_digits_decimal v rest :
  (0 <= v)%Z -> starts_with isdigit rest = false ->
  scan_digits 0 (decimal v ++ rest) = (v, length (decimal v)).
Proof.
  intros Hv Hrest. rewrite decimal_digits, scan_digits_of by assumption.
  f_equal. change (Pos.of_uint (N.to_uint (Z.to_N v)))
    with (N.of_uint (N.to_uint (Z.to_N v))).
  rewrite DecimalN.Unsigned.of_to, Z2N.id by assumption. lia.
Qed.

(** The conversion reads a padded decimal token back. *)
Lemma scan_token_decimal ws v rest :
  forallb isspace ws = true -> (0 <= v)%Z -> starts_with isdigit rest = false ->
  scan_token (ws ++ decimal v ++ rest) = Some (v, length ws + length (decimal v)).
Proof.
  intros Hws Hv Hrest.
  pose proof (decimal_head v) as Hd.
  pose proof (scan_digits_decimal v rest Hv Hrest) as Hscan.
  destruct (decimal v) as [|c l] eqn:E; [discriminate|].
  simpl in Hd. destruct (isdigit_props c Hd) as (Hsp & _ & _ & Hm & Hp).
  unfold scan_token.
  rewrite span_length_app by (simpl; assumption).
  rewrite skipn_app_length.
  rewrite <- app_comm_cons in *. unfold scan_sign. rewrite Hm, Hp.
  cbn [skipn]. rewrite Hd, Hscan. f_equal. f_equal. lia.
Qed.

Lemma strtol_clamp_int v :
  (INT_MIN <= v <= INT_MAX)%Z -> strtol_clamp v = v.
Proof.
  unfold strtol_clamp, INT_MIN, INT_MAX, LONG_MIN, LONG_MAX. intros H.
  destruct (Z.ltb_spec v (-9223372036854775808)); [lia|].
  destruct (Z.ltb_spec 9223372036854775807 v); [lia|]. reflexivity.
Qed.

Lemma in_range_check v :
  (INT_MIN <= v <= INT_MAX)%Z -> ((v <? INT_MIN) || (INT_MAX <? v))%Z = false.
Proof.
  intros H. destruct (Z.ltb_spec v INT_MIN); [lia|].
  destruct (Z.ltb_spec INT_MAX v); [lia|]. reflexivity.
Qed.

(** One iteration of the loop over a padded decimal token. *)
Lemma parse_loop_token fuel sep0 pre ws v bl tail acc :
  forallb isspace ws = true -> (0 <= v <= INT_MAX)%Z ->
  forallb isblank bl = true ->
  starts_with isdigit tail = false -> starts_with isblank tail = false ->
  parse_loop (S fuel) (pre ++ ws ++ decimal v ++ bl ++ tail) sep0 (length pre) acc
  = if is_nul (char_at tail 0) then Some (inr (acc ++ [v]))
    else if negb (Ascii.eqb (char_at tail 0) sep0)
    then Some (inl (separator_expected_at_char
                      (length (pre ++ ws ++ decimal v ++ bl) + 1)))
    else parse_loop fuel (pre ++ ws ++ decimal v ++ bl ++ tail) sep0
           (length (pre ++ ws ++ decimal v ++ bl) + 1) (acc ++ [v]).
Proof.
  intros Hws Hv Hbl Hdig Hblank.
  assert (Hrest : starts_with isdigit (bl ++ tail) = false).
  { destruct bl as [|b bl]; [exact Hdig|]. simpl in *.
    apply andb_prop in Hbl as [Hb _]. apply (isblank_props b Hb). }
  assert (Hhead : is_nul (char_at (ws ++ decimal v ++ bl ++ tail) 0) = false).
  { destruct ws as [|w ws]; simpl in *.
    - pose proof (decimal_head v) as Hd.
      destruct (decimal v) as [|c l]; [discriminate|]. simpl in *.
      apply (isdigit_props c Hd).
    - apply andb_prop in Hws as [Hw _]. apply (isspace_props w Hw). }
  cbn [parse_loop].
  rewrite <- (Nat.add_0_r (length pre)) at 1. rewrite char_at_app, Hhead.
  rewrite skipn_app_length.
  unfold sscanf_ld. rewrite scan_token_decimal by (assumption || lia).
  rewrite strtol_clamp_int, in_range_check by (unfold INT_MIN in *; lia).
  assert (S1 : skipn (length (pre ++ ws ++ decimal v))
                 (pre ++ ws ++ decimal v ++ bl ++ tail) = bl ++ tail).
  { replace (pre ++ ws ++ decimal v ++ bl ++ tail)
      with ((pre ++ ws ++ decimal v) ++ bl ++ tail)
      by (now rewrite <- !app_assoc).
    apply skipn_app_length. }
  assert (C2 : char_at (pre ++ ws ++ decimal v ++ bl ++ tail)
                 (length (pre ++ ws ++ decimal v ++ bl)) = char_at tail 0).
  { replace (pre ++ ws ++ decimal v ++ bl ++ tail)
      with ((pre ++ ws ++ decimal v ++ bl) ++ tail)
      by (now rewrite <- !app_assoc).
    rewrite <- (Nat.add_0_r (length _)). apply char_at_app. }
  replace (length pre + (length ws + length (decimal v)))
    with (length (pre ++ ws ++ decimal v)) by (rewrite !length_app; lia).
  rewrite S1, span_length_app by assumption.
  replace (length (pre ++ ws ++ decimal v) + length bl)
    with (length (pre ++ ws ++ decimal v ++ bl)) by (rewrite !length_app; lia).
  rewrite C2. reflexivity.
Qed.

(** ** Round trip *)

Lemma join_cons c t ts : ts <> [] -> join c (t :: ts) = t ++ c :: join c ts.
Proof. destruct ts; [contradiction | reflexivity]. Qed.

Lemma parse_loop_join c :
  isdigit c = false -> isblank c = false -> is_nul c = false ->
  forall items pre acc fuel,
    items <> [] -> forallb item_ok items = true -> length items <= fuel ->
    parse_loop fuel (pre ++ join c (map render_item items)) c (length pre) acc
    = Some (inr (acc ++ map item_value items)).
Proof.
  intros Hdig Hblank Hnul.
  induction items as [|[[ws v] bl] items IH]; intros pre acc fuel Hne Hok Hfuel;
    [contradiction|].
  cbn [forallb] in Hok. apply andb_prop in Hok as [Hit Hok].
  unfold item_ok in Hit.
  apply andb_prop in Hit as [Hit Hbl]. apply andb_prop in Hit as [Hws Hv].
  apply andb_prop in Hv as [Hv0 Hv1].
  apply Z.leb_le in Hv0. apply Z.leb_le in Hv1.
  destruct fuel as [|fuel]; [simpl in Hfuel; lia|].
  destruct items as [|it2 items].
  - cbn [map join render_item item_value].
    replace (ws ++ decimal v ++ bl) with (ws ++ decimal v ++ bl ++ [])
      by now rewrite app_nil_r.
    rewrite parse_loop_token by (auto; lia). reflexivity.
  - change (map render_item ((ws, v, bl) :: it2 :: items))
      with ((ws ++ decimal v ++ bl) :: map render_item (it2 :: items)).
    rewrite join_cons by discriminate.
    set (J := join c (map render_item (it2 :: items))) in *.
    rewrite <- !app_assoc.
    rewrite parse_loop_token by (auto; lia).
    cbn [char_at nth]. rewrite Hnul, Ascii.eqb_refl. cbn [negb].
    specialize (IH (pre ++ ws ++ decimal v ++ bl ++ [c]) (acc ++ [v]) fuel).
    replace (length (pre ++ ws ++ decimal v ++ bl) + 1)
      with (length (pre ++ ws ++ decimal v ++ bl ++ [c]))
      by (rewrite !length_app; simpl; lia).
    replace (pre ++ ws ++ decimal v ++ bl ++ c :: J)
      with ((pre ++ ws ++ decimal v ++ bl ++ [c]) ++ J)
      by (rewrite <- !app_assoc; reflexivity).
    rewrite IH; [|discriminate|exact Hok|simpl in *; lia].
    cbn [map item_value]. rewrite <- app_assoc. reflexivity.
Qed.

Lemma parse_string_join c items :
  isdigit c = false -> isblank c = false -> is_nul c = false ->
  items <> [] -> forallb item_ok items = true ->
  parse_string (join c (map render_item items)) c = inr (map item_value items).
Proof.
  intros Hdig Hblank Hnul Hne Hok.
  apply (parse_string_fuel _ _ (length items)).
  apply (parse_loop_join c Hdig Hblank Hnul items [] [] (length items)); auto.
Qed.

(** ** Positions where the loop expects a token *)

(** What the loop returns from a position it reaches is what the whole parse
    returns. *)
Lemma token_position_parse str sep0 offset acc :
  token_position str sep0 offset acc ->
  forall fuel r,
    parse_loop fuel str sep0 offset acc = Some r -> parse_string str sep0 = r.
Proof.
  induction 1 as [|offset acc val n _ IH Hnul Hscan Hrange Hnul' Hsep];
    intros fuel r Hr.
  - eapply parse_string_fuel; eassumption.
  - apply (IH (S fuel)). cbn [parse_loop].
    rewrite Hnul, Hscan, Hrange. fold (after_token str offset n).
    rewrite Hnul', Hsep. exact Hr.
Qed.

Lemma strsplit_single str sep g :
  bad_sep (sep_char sep) = false ->
  strsplit [mkCharLen str] sep g
  = Some (match parse_string str (sep_char sep) with
          | inl m => Rerror (in_list_element 1 m)
          | inr v => Rreturn [INTSXP v]
          end).
Proof.
  intros Hsep. rewrite strsplit_spec by exact Hsep. cbn [strsplit_pure].
  now destruct (parse_string str (sep_char sep)).
Qed.

Lemma clamp_out_of_range v :
  (v < INT_MIN \/ INT_MAX < v)%Z ->
  ((strtol_clamp v <? INT_MIN) || (INT_MAX <? strtol_clamp v))%Z = true.
Proof.
  unfold strtol_clamp, INT_MIN, INT_MAX, LONG_MIN, LONG_MAX. intros H.
  apply orb_true_iff.
  destruct (Z.ltb_spec v (-9223372036854775808)); [left; reflexivity|].
  destruct (Z.ltb_spec 9223372036854775807 v); [right; reflexivity|].
  destruct H; [left; apply Z.ltb_lt | right; apply Z.ltb_lt]; assumption.
Qed.

Lemma good_sep c :
  isdigit c = false -> c <> "+" -> c <> "-" -> bad_sep c = false.
Proof.
  intros Hd Hp Hm. unfold bad_sep. rewrite Hd.
  destruct (Ascii.eqb_spec c "+"); [contradiction|].
  destruct (Ascii.eqb_spec c "-"); [contradiction|]. reflexivity.
Qed.

Lemma not_nul c : c <> NUL -> is_nul c = false.
Proof. intros H. unfold is_nul. now destruct (Ascii.eqb_spec c NUL). Qed.

(** The entry point always comes back, with a value or with an error. *)
Lemma strsplit_returns x sep g : exists r, strsplit x sep g = Some r.
Proof.
  destruct (bad_sep (sep_char sep)) eqn:Hsep.
  - unfold strsplit, strsplit_as_list_of_ints. fold (sep_char sep).
    unfold bad_sep in Hsep. rewrite Hsep. simpl. eauto.
  - rewrite strsplit_spec by exact Hsep. eauto.
Qed.

Lemma agrees_result r p :
  agrees r (Some p) ->
  option_map fst r
  = Some (match p with inl _ => R_NilValue | inr v => INTSXP v end).
Proof.
  destruct r as [[[|v'] g']|], p as [m|v]; simpl; try contradiction.
  - reflexivity.
  - now intros [-> _].
Qed.

(** ** The embedding on small inputs *)

Example sscanf_ld_plain : sscanf_ld (cstr "42,7") = Some (42%Z, 2).
Proof. reflexivity. Qed.

Example sscanf_ld_signs :
  sscanf_ld (cstr "-0") = Some (0%Z, 2) /\ sscanf_ld (cstr "+15x") = Some (15%Z, 3).
Proof. split; reflexivity. Qed.

Example sscanf_ld_white_space :
  sscanf_ld (" " :: "009" :: cstr "-3 ") = Some ((-3)%Z, 4).
Proof. reflexivity. Qed.

Example sscanf_ld_fails :
  sscanf_ld [] = None /\ sscanf_ld (cstr "-") = None /\
  sscanf_ld (cstr "- 1") = None /\ sscanf_ld (cstr ".5") = None.
Proof. repeat split; reflexivity. Qed.

Example sscanf_ld_saturates :
  sscanf_ld (cstr "99999999999999999999") = Some (LONG_MAX, 20) /\
  sscanf_ld (cstr "-99999999999999999999") = Some (LONG_MIN, 21).
Proof. split; reflexivity. Qed.

Example buffer_keeps_stale_values :
  let ae := _IntAE_insert_at (_IntAE_insert_at (_new_IntAE 0 0 0) 0 1%Z) 1 2%Z in
  elts (_IntAE_insert_at (set_nelt ae 0) 0 3%Z) = [3; 2]%Z /\
  _IntAE_asINTEGER (_IntAE_insert_at (set_nelt ae 0) 0 3%Z) = INTSXP [3%Z].
Proof. split; reflexivity. Qed.

Example decimal_examples :
  decimal 0 = cstr "0" /\ decimal 2147483647 = cstr "2147483647".
Proof. split; reflexivity. Qed.

(** * The claims *)

(** C1: the round trip does not hold for a blank separator.  On the input
    ["1 2"] with separator [" "], which is the join of the decimal
    representations of 1 and 2 and whose separator passes the check of the
    entry point, the blank after the first token is skipped as padding, the
    second token is met where the separator is expected, and the call fails
    with "separator expected at char 3" instead of returning [1, 2]. *)
Theorem C1_blank_separator (g : globals) :
  join " " (map decimal [1; 2]%Z) = cstr "1 2" /\
  bad_sep (sep_char [Str " "]) = false /\
  strsplit [Str "1 2"] [Str " "] g
  = Some (Rerror (in_list_element 1 (separator_expected_at_char 3))).
Proof.
  split; [reflexivity|]. split; [reflexivity|].
  unfold Str. rewrite strsplit_single by reflexivity. vm_compute. reflexivity.
Qed.

(** C2: ["10.5"] with separator [','] fails with "separator expected" at
    character 3, and ["abc"] fails with "decimal integer expected" at
    character 1, both in list element 1. *)
Theorem C2_strict_rejection (g : globals) :
  strsplit [Str "10.5"] [Str ","] g
  = Some (Rerror (in_list_element 1 (separator_expected_at_char 3)))
  /\
  strsplit [Str "abc"] [Str ","] g
  = Some (Rerror (in_list_element 1 (decimal_integer_expected_at_char 1))).
Proof.
  split; unfold Str; rewrite strsplit_single by reflexivity; vm_compute; reflexivity.
Qed.

(** C3, as stated, fails: the token of ["2147483648 "] is 10 characters long,
    so the offset immediately after it is 11, but the blank after the token
    is skipped before the range check and the error is reported at 12. *)
Lemma C3_counterexample :
  scan_token (cstr "2147483648 ") = Some (2147483648%Z, 10)
  /\
  strsplit [Str "2147483648 "] [Str ","] initial_globals
  = Some (Rerror (in_list_element 1 (out_of_range_integer_at_char 12))).
Proof. split; vm_compute; reflexivity. Qed.

(** C3 (amended): whenever the token read at a position the loop reaches
    has a numeric value outside [INT_MIN, INT_MAX], the parse fails with
    "out of range integer", reported at the 1-based offset of the first
    character after the token and the blanks that follow it; ["2147483648"]
    fails so (at character 11) and ["2147483647"] yields [2147483647]. *)
Theorem C3_out_of_range :
  (forall (str : list ascii) (sep : STRSXP) (g : globals)
          (offset : nat) (acc : list Z) (v : Z) (n : nat),
      bad_sep (sep_char sep) = false ->
      token_position str (sep_char sep) offset acc ->
      is_nul (char_at str offset) = false ->
      scan_token (skipn offset str) = Some (v, n) ->
      (v < INT_MIN \/ INT_MAX < v)%Z ->
      strsplit [mkCharLen str] sep g
      = Some (Rerror (in_list_element 1
                (out_of_range_integer_at_char (after_token str offset n + 1)))))
  /\
  (forall g, strsplit [Str "2147483648"] [Str ","] g
             = Some (Rerror (in_list_element 1 (out_of_range_integer_at_char 11))))
  /\
  (forall g, strsplit [Str "2147483647"] [Str ","] g
             = Some (Rreturn [INTSXP [2147483647%Z]])).
Proof.
  split; [|split].
  - intros str sep g offset acc v n Hsep Hpos Hnul Hscan Hv.
    rewrite strsplit_single by exact Hsep.
    rewrite (token_position_parse _ _ _ _ Hpos 1
               (inl (out_of_range_integer_at_char (after_token str offset n + 1))));
      [reflexivity|].
    cbn [parse_loop]. unfold sscanf_ld. rewrite Hnul, Hscan.
    rewrite clamp_out_of_range by exact Hv. reflexivity.
  - intros g. unfold Str. rewrite strsplit_single by reflexivity. vm_compute. reflexivity.
  - intros g. unfold Str. rewrite strsplit_single by reflexivity. vm_compute. reflexivity.
Qed.

Lemma C3_out_of_range_witness :
  strsplit [Str "7,-99999999999999999999 ,8"] [Str ","] initial_globals
  = Some (Rerror (in_list_element 1 (out_of_range_integer_at_char 25))).
Proof.
  apply (proj1 C3_out_of_range (cstr "7,-99999999999999999999 ,8") [Str ","]
           initial_globals 2 [7%Z] (-99999999999999999999)%Z 21).
  - reflexivity.
  - exact (tp_next (cstr "7,-99999999999999999999 ,8") "," 0 [] 7%Z 1
             (tp_start _ _) eq_refl eq_refl eq_refl eq_refl eq_refl).
  - reflexivity.
  - reflexivity.
  - left. reflexivity.
Defined.

(** C4: when the separator character is a decimal digit, ['+'] or ['-'], the
    call fails with ['sep' cannot be a digit, "+" or "-"] whatever [x]
    holds, and the statics are left as they were: no element was parsed. *)
Theorem C4_invalid_separator (x sep : STRSXP) (g : globals) :
  isdigit (sep_char sep) = true \/ sep_char sep = "+" \/ sep_char sep = "-" ->
  strsplit_as_list_of_ints x sep g
  = Some (Rerror sep_cannot_be_a_digit_plus_or_minus, g).
Proof.
  intros H. unfold strsplit_as_list_of_ints. fold (sep_char sep).
  destruct H as [->|[->| ->]]; [reflexivity| |reflexivity].
  now rewrite orb_true_r.
Qed.

Lemma C4_invalid_separator_witness :
  strsplit_as_list_of_ints [NA_STRING; Str "abc"; Str "1,2"] [Str "5"]
    initial_globals
  = Some (Rerror sep_cannot_be_a_digit_plus_or_minus, initial_globals).
Proof. apply C4_invalid_separator. left. reflexivity. Defined.

(** C5, as stated, fails: in ["1,"] the loop expects a token at offset 2,
    after the separator that ends the string; none is there, and the parse
    succeeds. *)
Lemma C5_counterexample :
  token_position (cstr "1,") "," 2 [1%Z] /\
  scan_token (skipn 2 (cstr "1,")) = None /\
  strsplit [Str "1,"] [Str ","] initial_globals = Some (Rreturn [INTSXP [1%Z]]).
Proof.
  split; [|split; vm_compute; reflexivity].
  exact (tp_next (cstr "1,") "," 0 [] 1%Z 1
           (tp_start _ _) eq_refl eq_refl eq_refl eq_refl eq_refl).
Qed.

(** C5 (amended): at a position where the loop expects a token (the start
    of the string, or just after a separator that follows an accepted token),
    when the string has not ended and no signed decimal token is there, the
    parse fails with "decimal integer expected" at that position; when the
    string ends there (an empty string, or a separator at the end of the
    string) the parse succeeds with the values read so far. *)
Theorem C5_empty_tokens (str : list ascii) (sep : STRSXP) (g : globals)
    (offset : nat) (acc : list Z) :
  bad_sep (sep_char sep) = false ->
  token_position str (sep_char sep) offset acc ->
  (is_nul (char_at str offset) = false ->
   scan_token (skipn offset str) = None ->
   strsplit [mkCharLen str] sep g
   = Some (Rerror (in_list_element 1
             (decimal_integer_expected_at_char (offset + 1)))))
  /\
  (is_nul (char_at str offset) = true ->
   strsplit [mkCharLen str] sep g = Some (Rreturn [INTSXP acc])).
Proof.
  intros Hsep Hpos. rewrite strsplit_single by exact Hsep. split.
  - intros Hnul Hscan.
    rewrite (token_position_parse _ _ _ _ Hpos 1
               (inl (decimal_integer_expected_at_char (offset + 1))));
      [reflexivity|].
    cbn [parse_loop]. unfold sscanf_ld. now rewrite Hnul, Hscan.
  - intros Hnul.
    rewrite (token_position_parse _ _ _ _ Hpos 1 (inr acc)); [reflexivity|].
    cbn [parse_loop]. now rewrite Hnul.
Qed.

Lemma C5_empty_tokens_witness :
  strsplit [Str "1,,2"] [Str ","] initial_globals
  = Some (Rerror (in_list_element 1 (decimal_integer_expected_at_char 3))).
Proof.
  apply (proj1 (C5_empty_tokens (cstr "1,,2") [Str ","] initial_globals 2 [1%Z]
                  eq_refl
                  (tp_next (cstr "1,,2") "," 0 [] 1%Z 1
                     (tp_start _ _) eq_refl eq_refl eq_refl eq_refl eq_refl)));
    reflexivity.
Defined.










(** C8, as stated, fails on byte value 0: [mkChar] stops at the first NUL of
    the scratch array, so a zero byte yields an empty string, not a
    single-byte one, and the concatenation loses it. *)
Lemma C8_counterexample :
  safe_strexplode [mkCharLen [NUL]] = [mkCharLen []] /\
  concat (map CHAR (safe_strexplode [mkCharLen [NUL]])) <> [NUL].
Proof. split; [reflexivity | discriminate]. Qed.

(** C8 (amended): for every byte string [s] of length [n] with no zero byte,
    [safe_strexplode] returns exactly [n] elements, each the single-byte
    string of the byte at its position, and concatenating them in order
    reproduces [s] byte for byte. *)
Theorem C8_explode (s : list ascii) (more : STRSXP) :
  Forall (fun c => c <> NUL) s ->
  length (safe_strexplode (mkCharLen s :: more)) = length s /\
  safe_strexplode (mkCharLen s :: more) = map (fun c => mkCharLen [c]) s /\
  Forall (fun e => LENGTH_CHARSXP e = 1) (safe_strexplode (mkCharLen s :: more)) /\
  concat (map CHAR (safe_strexplode (mkCharLen s :: more))) = s.
Proof.
  intros Hs. rewrite safe_strexplode_map. cbn [CHAR].
  assert (E : map (fun c => mkChar [c; NUL]) s = map (fun c => mkCharLen [c]) s).
  { induction Hs as [|c s Hc _ IH]; [reflexivity|].
    cbn [map]. now rewrite mkChar_byte, IH. }
  rewrite E. clear E Hs. repeat split.
  - apply length_map.
  - apply Forall_map. apply Forall_forall. reflexivity.
  - rewrite map_map. cbn [CHAR]. induction s as [|c s IH]; [reflexivity|].
    cbn [map concat app]. now rewrite IH.
Qed.

Lemma C8_explode_witness :
  safe_strexplode [mkCharLen ["010"; "255"; "a"]]
  = [mkCharLen ["010"]; mkCharLen ["255"]; mkCharLen ["a"]].
Proof.
  apply (C8_explode ["010"; "255"; "a"] []).
  repeat constructor; discriminate.
Defined.

(** C9: whatever the shared buffer holds from earlier strings, a string
    parses to what it parses to on its own; so a batch of valid strings
    returns, in input order, the values of each string parsed on its own,
    and [["1,2"; "3"]] yields [[[1, 2], [3]]]. *)
Theorem C9_no_leak :
  (forall (s : CHARSXP) (sep0 : ascii) (g : globals),
      IntAE_ok (int_ae_buf g) ->
      option_map fst (explode_string_as_integer_vector s sep0 g)
      = explode_alone s sep0)
  /\
  (forall (x sep : STRSXP) (g : globals) (vs : list (list Z)),
      bad_sep (sep_char sep) = false ->
      Forall2 (valid_elt (sep_char sep)) x vs ->
      strsplit x sep g = Some (Rreturn (map INTSXP vs)))
  /\
  (forall g, strsplit [Str "1,2"; Str "3"] [Str ","] g
             = Some (Rreturn [INTSXP [1; 2]%Z; INTSXP [3%Z]])).
Proof.
  split; [|split].
  - intros s sep0 g Hok. unfold explode_alone.
    rewrite (agrees_result _ _ (explode_agrees s sep0 g Hok)).
    now rewrite (agrees_result _ _ (explode_agrees s sep0 fresh_globals new_IntAE_ok)).
  - intros x sep g vs Hsep Hx. rewrite strsplit_spec by exact Hsep.
    now rewrite (strsplit_pure_valid _ _ _ Hx).
  - intros g. rewrite strsplit_spec by reflexivity. vm_compute. reflexivity.
Qed.

Lemma C9_no_leak_witness :
  strsplit [Str "4,5,6"; Str "7"; R_BlankString; Str "8,9"] [Str ","]
    (mkGlobals (mkIntAE 2 [11; 12]%Z 2) no_message)
  = Some (Rreturn (map INTSXP [[4; 5; 6]; [7]; []; [8; 9]]%Z)).
Proof.
  apply (proj1 (proj2 C9_no_leak)).
  - reflexivity.
  - repeat (apply Forall2_cons || apply Forall2_nil);
      (split; [discriminate | reflexivity]).
Defined.

(** C10: a separator string longer than one character is not refused for
    its length; the call returns what it returns for the one-character
    string of its first character, which alone is validated and matched:
    with [";,"] the tokens of ["1;2"] are split at [';'], [','] in ["1,2"] is
    no delimiter, and ["5,"] is refused for its digit. *)
Theorem C10_long_separator :
  (forall (x : STRSXP) (c c' : ascii) (rest : list ascii) (more : STRSXP)
          (g : globals),
      strsplit_as_list_of_ints x (mkCharLen (c :: c' :: rest) :: more) g
      = strsplit_as_list_of_ints x [mkCharLen [c]] g)
  /\
  (forall g, strsplit [Str "1;2"] [Str ";,"] g
             = Some (Rreturn [INTSXP [1; 2]%Z]))
  /\
  (forall g, strsplit [Str "1,2"] [Str ";,"] g
             = Some (Rerror (in_list_element 1 (separator_expected_at_char 2))))
  /\
  (forall g, strsplit [Str "1,2"] [Str "5,"] g
             = Some (Rerror sep_cannot_be_a_digit_plus_or_minus)).
Proof.
  split; [reflexivity|].
  repeat split; intros g; try reflexivity;
    unfold Str; rewrite strsplit_single by reflexivity; vm_compute; reflexivity.
Qed.

(** * Further properties of [strsplit_as_list_of_ints] *)

Lemma strsplit_some x sep g r :
  strsplit x sep g = Some r ->
  exists g', strsplit_as_list_of_ints x sep g = Some (r, g').
Proof.
  unfold strsplit.
  destruct (strsplit_as_list_of_ints x sep g) as [[r' g']|]; [|discriminate].
  simpl. intros H. injection H as ->. now exists g'.
Qed.

Lemma strsplit_bad_sep x sep g :
  bad_sep (sep_char sep) = true ->
  strsplit x sep g = Some (Rerror sep_cannot_be_a_digit_plus_or_minus).
Proof.
  intros H. unfold strsplit, strsplit_as_list_of_ints. fold (sep_char sep).
  unfold bad_sep in H. now rewrite H.
Qed.

(** X1: the call always comes back, with a vector or with an error: the scan
    of a string never needs more than [length str + 1] iterations, because
    each one consumes at least one character. *)
Theorem X1_strsplit_terminates (x sep : STRSXP) (g : globals) :
  exists r g', strsplit_as_list_of_ints x sep g = Some (r, g').
Proof.
  destruct (strsplit_returns x sep g) as [r Hr].
  destruct (strsplit_some _ _ _ _ Hr) as [g' Hg']. now exists r, g'.
Qed.

(** X2: what a call returns does not depend on what earlier calls left in
    [int_ae_buf] and [errmsg_buf]. *)
Theorem X2_statics_irrelevant (x sep : STRSXP) (g g' : globals) :
  strsplit x sep g = strsplit x sep g'.
Proof.
  destruct (bad_sep (sep_char sep)) eqn:Hsep.
  - now rewrite !strsplit_bad_sep.
  - now rewrite !strsplit_spec.
Qed.

Lemma explode_alone_msg_parse bytes sep0 m :
  explode_alone_msg (mkCharLen bytes) sep0 = Some (R_NilValue, m) ->
  parse_string bytes sep0 = inl m.
Proof.
  unfold explode_alone_msg. intros H.
  pose proof (explode_agrees (mkCharLen bytes) sep0 fresh_globals new_IntAE_ok) as Ha.
  cbn [CHAR] in Ha.
  destruct (explode_string_as_integer_vector (mkCharLen bytes) sep0 fresh_globals)
    as [[r g']|]; [|discriminate].
  simpl in H. injection H as -> <-.
  destruct (parse_string bytes sep0) as [m'|v]; simpl in Ha; [|contradiction].
  now destruct Ha as [-> _].
Qed.

Lemma strsplit_pure_first_error sep0 pre vs bytes post m :
  Forall2 (valid_elt sep0) pre vs ->
  parse_string bytes sep0 = inl m ->
  forall i, strsplit_pure (pre ++ mkCharLen bytes :: post) sep0 i
            = Rerror (in_list_element (i + length pre + 1) m).
Proof.
  intros Hpre Hp. induction Hpre as [|e v pre vs He _ IH]; intros i.
  - simpl. rewrite Hp. now rewrite Nat.add_0_r.
  - destruct (valid_elt_parse _ _ _ He) as (b & -> & Hb).
    simpl. rewrite Hb, IH. do 2 f_equal. lia.
Qed.

(** X3: the batch stops at the first string that does not parse: when the
    strings before it are valid, the error carries its 1-based index and the
    message it gives when parsed on its own, whatever follows it. *)
Theorem X3_first_error (pre post sep : STRSXP) (bytes : list ascii)
    (g : globals) (vs : list (list Z)) (m : errmsg) :
  bad_sep (sep_char sep) = false ->
  Forall2 (valid_elt (sep_char sep)) pre vs ->
  explode_alone_msg (mkCharLen bytes) (sep_char sep) = Some (R_NilValue, m) ->
  strsplit (pre ++ mkCharLen bytes :: post) sep g
  = Some (Rerror (in_list_element (length pre + 1) m)).
Proof.
  intros Hsep Hpre Hm. rewrite strsplit_spec by exact Hsep.
  now rewrite (strsplit_pure_first_error _ _ _ _ _ _ Hpre
                 (explode_alone_msg_parse _ _ _ Hm)).
Qed.

Lemma X3_first_error_witness :
  strsplit ([Str "1,2"; Str "30"] ++ Str "4;5" :: [NA_STRING; Str "x"])
    [Str ","] initial_globals
  = Some (Rerror (in_list_element 3 (separator_expected_at_char 2))).
Proof.
  apply (X3_first_error [Str "1,2"; Str "30"] [NA_STRING; Str "x"] [Str ","]
           (cstr "4;5") initial_globals [[1; 2]; [30]]%Z).
  - reflexivity.
  - repeat (apply Forall2_cons || apply Forall2_nil);
      (split; [discriminate | reflexivity]).
  - reflexivity.
Defined.

Lemma parse_loop_in_range str sep0 :
  forall fuel offset acc v,
    Forall in_int_range acc ->
    parse_loop fuel str sep0 offset acc = Some (inr v) ->
    Forall in_int_range v.
Proof.
  induction fuel as [|fuel IH]; intros offset acc v Hacc; [discriminate|].
  cbn [parse_loop].
  destruct (is_nul (char_at str offset)); [now intros [= <-]|].
  destruct (sscanf_ld (skipn offset str)) as [[val n]|]; [|discriminate].
  destruct ((val <? INT_MIN) || (INT_MAX <? val))%Z eqn:Hr; [discriminate|].
  assert (Hacc' : Forall in_int_range (acc ++ [val])).
  { apply Forall_app. split; [exact Hacc|]. constructor; [|constructor].
    apply orb_false_iff in Hr as [H1 H2].
    apply Z.ltb_ge in H1. apply Z.ltb_ge in H2. split; assumption. }
  set (off := offset + n + span_length isblank (skipn (offset + n) str)).
  destruct (is_nul (char_at str off)); [now intros [= <-]|].
  destruct (negb (Ascii.eqb (char_at str off) sep0)); [discriminate|].
  apply IH. exact Hacc'.
Qed.

Lemma parse_string_in_range str sep0 v :
  parse_string str sep0 = inr v -> Forall in_int_range v.
Proof.
  intros H. pose proof (parse_string_eq str sep0) as E. rewrite H in E.
  eapply parse_loop_in_range; [constructor | exact E].
Qed.

Lemma strsplit_pure_shape sep0 :
  forall x i ans,
    strsplit_pure x sep0 i = Rreturn ans ->
    length ans = length x /\ Forall is_int_vector ans.
Proof.
  induction x as [|e x IH]; intros i ans.
  - simpl. intros [= <-]. split; [reflexivity | constructor].
  - destruct e as [|bytes]; [discriminate|]. cbn [strsplit_pure].
    destruct (parse_string bytes sep0) as [m|v] eqn:Hp; [discriminate|].
    destruct (strsplit_pure x sep0 (i + 1)) as [e|l] eqn:Hx; [discriminate|].
    intros [= <-]. destruct (IH _ _ Hx) as [Hl Hf]. split.
    + simpl. now rewrite Hl.
    + constructor; [|exact Hf]. exists v. split; [reflexivity|].
      eapply parse_string_in_range; eassumption.
Qed.

Lemma strsplit_good x sep g a :
  strsplit x sep g = Some (Rreturn a) -> bad_sep (sep_char sep) = false.
Proof.
  destruct (bad_sep (sep_char sep)) eqn:Hsep; [|reflexivity].
  rewrite strsplit_bad_sep by exact Hsep. discriminate.
Qed.

(** X4: a call that returns, returns one integer vector per input string,
    never a NULL element, and every value in them fits an [int]. *)
Theorem X4_result_shape (x sep : STRSXP) (g : globals) (ans : VECSXP) :
  strsplit x sep g = Some (Rreturn ans) ->
  length ans = length x /\ Forall is_int_vector ans.
Proof.
  intros H. pose proof (strsplit_good _ _ _ _ H) as Hsep.
  rewrite strsplit_spec in H by exact Hsep. injection H as H.
  eapply strsplit_pure_shape; eassumption.
Qed.

Lemma X4_result_shape_witness :
  length [INTSXP [1; -2]%Z; INTSXP []] = length [Str "1, -2"; R_BlankString] /\
  Forall is_int_vector [INTSXP [1; -2]%Z; INTSXP []].
Proof.
  apply (X4_result_shape [Str "1, -2"; R_BlankString] [Str ","] initial_globals).
  reflexivity.
Defined.

Lemma span_length_le p l : span_length p l <= length l.
Proof. induction l as [|c l IH]; simpl; [lia|]. destruct (p c); lia. Qed.

Lemma scan_digits_le l : forall acc, snd (scan_digits acc l) <= length l.
Proof.
  induction l as [|c l IH]; intros acc; cbn [scan_digits]; [simpl; lia|].
  destruct (isdigit c); [|simpl; lia].
  specialize (IH (10 * acc + digit_value c)%Z).
  destruct (scan_digits (10 * acc + digit_value c) l). simpl in *. lia.
Qed.

Lemma scan_token_le s v n : scan_token s = Some (v, n) -> n <= length s.
Proof.
  unfold scan_token.
  pose proof (span_length_le isspace s) as Hws.
  set (ws := span_length isspace s) in *.
  assert (Hsg : snd (scan_sign (skipn ws s)) <= length (skipn ws s)).
  { unfold scan_sign. destruct (skipn ws s) as [|c l]; [simpl; lia|].
    destruct (Ascii.eqb c "-"); [simpl; lia|].
    destruct (Ascii.eqb c "+"); simpl; lia. }
  destruct (scan_sign (skipn ws s)) as [neg sg]. simpl in Hsg.
  pose proof (scan_digits_le (skipn sg (skipn ws s)) 0) as Hk.
  destruct (skipn sg (skipn ws s)) as [|c l] eqn:E; [discriminate|].
  destruct (isdigit c); [|discriminate].
  destruct (scan_digits 0 (c :: l)) as [w k]. simpl in Hk.
  intros [= _ <-].
  assert (length (c :: l) = length s - ws - sg)
    by (rewrite <- E, !length_skipn; reflexivity).
  cbn [length] in H. rewrite length_skipn in Hsg. lia.
Qed.

Lemma sscanf_ld_le s v n : sscanf_ld s = Some (v, n) -> n <= length s.
Proof.
  unfold sscanf_ld. destruct (scan_token s) as [[w k]|] eqn:Ht; [|discriminate].
  intros [= _ <-]. eapply scan_token_le; eassumption.
Qed.

Lemma parse_loop_error_pos str sep0 :
  forall fuel offset acc m,
    parse_loop fuel str sep0 offset acc = Some (inl m) ->
    exists n, is_parse_message m n /\ 1 <= n <= length str + 1.
Proof.
  induction fuel as [|fuel IH]; intros offset acc m; [discriminate|].
  cbn [parse_loop].
  destruct (is_nul (char_at str offset)) eqn:Hnul; [discriminate|].
  apply char_at_lt in Hnul.
  destruct (sscanf_ld (skipn offset str)) as [[val n]|] eqn:Hs.
  2:{ intros [= <-]. exists (offset + 1). split; [left; reflexivity | lia]. }
  apply sscanf_ld_le in Hs. rewrite length_skipn in Hs.
  pose proof (span_length_le isblank (skipn (offset + n) str)) as Hb.
  rewrite length_skipn in Hb.
  set (off := offset + n + span_length isblank (skipn (offset + n) str)) in *.
  destruct ((val <? INT_MIN) || (INT_MAX <? val))%Z.
  { intros [= <-]. exists (off + 1).
    split; [right; left; reflexivity | unfold off; lia]. }
  destruct (is_nul (char_at str off)) eqn:Hnul'; [discriminate|].
  apply char_at_lt in Hnul'.
  destruct (negb (Ascii.eqb (char_at str off) sep0)).
  { intros [= <-]. exists (off + 1). split; [right; right; reflexivity | lia]. }
  apply IH.
Qed.

Lemma strsplit_pure_error sep0 :
  forall x i j m,
    strsplit_pure x sep0 i = Rerror (in_list_element j m) ->
    exists k bytes,
      j = i + k + 1 /\ nth_error x k = Some (mkCharLen bytes) /\
      parse_string bytes sep0 = inl m.
Proof.
  induction x as [|e x IH]; intros i j m; [discriminate|].
  destruct e as [|bytes]; [discriminate|]. cbn [strsplit_pure].
  destruct (parse_string bytes sep0) as [m'|v] eqn:Hp.
  - intros [= <- <-]. exists 0, bytes. repeat split; [lia | assumption].
  - destruct (strsplit_pure x sep0 (i + 1)) as [e|l] eqn:Hx; [|discriminate].
    intros [= ->]. destruct (IH _ _ _ Hx) as (k & b & -> & Hn & Hb).
    exists (S k), b. repeat split; [lia | assumption | assumption].
Qed.

(** X5: a parse error names an existing element of [x] by its 1-based index
    and carries one of the three parse messages, whose character position
    lies between 1 and one past the length of that element's string. *)
Theorem X5_error_positions (x sep : STRSXP) (g : globals) (i : nat) (m : errmsg) :
  strsplit x sep g = Some (Rerror (in_list_element i m)) ->
  exists bytes n,
    1 <= i <= length x /\
    nth_error x (i - 1) = Some (mkCharLen bytes) /\
    is_parse_message m n /\ 1 <= n <= length bytes + 1.
Proof.
  intros H.
  destruct (bad_sep (sep_char sep)) eqn:Hsep.
  { rewrite strsplit_bad_sep in H by exact Hsep. discriminate. }
  rewrite strsplit_spec in H by exact Hsep. injection H as H.
  destruct (strsplit_pure_error _ _ _ _ _ H) as (k & bytes & -> & Hn & Hp).
  pose proof (parse_string_eq bytes (sep_char sep)) as E. rewrite Hp in E.
  destruct (parse_loop_error_pos _ _ _ _ _ _ E) as (n & Hm & Hb).
  exists bytes, n. replace (0 + k + 1 - 1) with k by lia.
  assert (k < length x) by (apply nth_error_Some; congruence).
  repeat split; try assumption; lia.
Qed.

Lemma X5_error_positions_witness :
  exists bytes n,
    1 <= 2 <= length [Str "1"; Str "2,x"; Str "3"] /\
    nth_error [Str "1"; Str "2,x"; Str "3"] (2 - 1) = Some (mkCharLen bytes) /\
    is_parse_message (decimal_integer_expected_at_char 3) n /\
    1 <= n <= length bytes + 1.
Proof.
  apply (X5_error_positions [Str "1"; Str "2,x"; Str "3"] [Str ","] initial_globals).
  reflexivity.
Defined.

(** X6: when the token read at a position the loop reaches fits an [int] and
    the character after it and its blanks is neither the end of the string
    nor the separator, the parse fails with "separator expected" at that
    character. *)
Theorem X6_separator_expected (str : list ascii) (sep : STRSXP) (g : globals)
    (offset : nat) (acc : list Z) (v : Z) (n : nat) :
  bad_sep (sep_char sep) = false ->
  token_position str (sep_char sep) offset acc ->
  is_nul (char_at str offset) = false ->
  scan_token (skipn offset str) = Some (v, n) ->
  (INT_MIN <= v <= INT_MAX)%Z ->
  is_nul (char_at str (after_token str offset n)) = false ->
  char_at str (after_token str offset n) <> sep_char sep ->
  strsplit [mkCharLen str] sep g
  = Some (Rerror (in_list_element 1
            (separator_expected_at_char (after_token str offset n + 1)))).
Proof.
  intros Hsep Hpos Hnul Hscan Hv Hnul' Hne.
  rewrite strsplit_single by exact Hsep.
  rewrite (token_position_parse _ _ _ _ Hpos 1
             (inl (separator_expected_at_char (after_token str offset n + 1))));
    [reflexivity|].
  cbn [parse_loop]. unfold sscanf_ld. rewrite Hnul, Hscan.
  rewrite strtol_clamp_int, in_range_check by assumption.
  fold (after_token str offset n). rewrite Hnul'.
  destruct (Ascii.eqb_spec (char_at str (after_token str offset n)) (sep_char sep));
    [contradiction | reflexivity].
Qed.

Lemma X6_separator_expected_witness :
  strsplit [Str "5,0x1F"] [Str ","] initial_globals
  = Some (Rerror (in_list_element 1 (separator_expected_at_char 4))).
Proof.
  apply (X6_separator_expected (cstr "5,0x1F") [Str ","] initial_globals
           2 [5%Z] 0%Z 1).
  - reflexivity.
  - exact (tp_next (cstr "5,0x1F") "," 0 [] 5%Z 1
             (tp_start _ _) eq_refl eq_refl eq_refl eq_refl eq_refl).
  - reflexivity.
  - reflexivity.
  - unfold INT_MIN, INT_MAX. lia.
  - reflexivity.
  - discriminate.
Defined.

Lemma strsplit_pure_not_sep sep0 :
  forall x i, strsplit_pure x sep0 i <> Rerror sep_cannot_be_a_digit_plus_or_minus.
Proof.
  induction x as [|e x IH]; intros i; [discriminate|].
  destruct e as [|bytes]; [discriminate|]. cbn [strsplit_pure].
  destruct (parse_string bytes sep0); [discriminate|].
  specialize (IH (i + 1)).
  destruct (strsplit_pure x sep0 (i + 1)); [|discriminate].
  intros [= ->]. now apply IH.
Qed.

(** X7: the call fails with ['sep' cannot be a digit, "+" or "-"] exactly
    when the first character of [sep] is a digit, ['+'] or ['-']; no other
    separator and no content of [x] raises that condition. *)
Theorem X7_separator_error_iff (x sep : STRSXP) (g : globals) :
  strsplit x sep g = Some (Rerror sep_cannot_be_a_digit_plus_or_minus)
  <-> (isdigit (sep_char sep) = true \/ sep_char sep = "+" \/ sep_char sep = "-").
Proof.
  split.
  - intros H. destruct (bad_sep (sep_char sep)) eqn:Hsep.
    + unfold bad_sep in Hsep.
      apply orb_true_iff in Hsep as [Hsep|Hm];
        [apply orb_true_iff in Hsep as [Hd|Hp]|].
      * now left.
      * right; left. now apply Ascii.eqb_eq.
      * right; right. now apply Ascii.eqb_eq.
    + rewrite strsplit_spec in H by exact Hsep. injection H as H.
      now apply strsplit_pure_not_sep in H.
  - intros H. apply strsplit_bad_sep. unfold bad_sep.
    destruct H as [->|[->| ->]]; [reflexivity| |reflexivity].
    now rewrite orb_true_r.
Qed.

Lemma strsplit_pure_shift sep0 :
  forall x i j a, strsplit_pure x sep0 i = Rreturn a -> strsplit_pure x sep0 j = Rreturn a.
Proof.
  induction x as [|e x IH]; intros i j a; [exact (fun H => H)|].
  destruct e as [|bytes]; [discriminate|]. cbn [strsplit_pure].
  destruct (parse_string bytes sep0) as [m|v]; [discriminate|].
  destruct (strsplit_pure x sep0 (i + 1)) as [e|l] eqn:Hx; [discriminate|].
  intros [= <-]. now rewrite (IH _ (j + 1) _ Hx).
Qed.

Lemma strsplit_pure_app sep0 :
  forall x1 x2 i ans,
    strsplit_pure (x1 ++ x2) sep0 i = Rreturn ans <->
    exists a1 a2,
      strsplit_pure x1 sep0 i = Rreturn a1 /\
      strsplit_pure x2 sep0 i = Rreturn a2 /\ ans = a1 ++ a2.
Proof.
  induction x1 as [|e x1 IH]; intros x2 i ans.
  - cbn [app strsplit_pure]. split.
    + intros H. exists [], ans. auto.
    + intros (a1 & a2 & H1 & H & ->). injection H1 as <-. exact H.
  - destruct e as [|bytes].
    { simpl. split; [discriminate|]. intros (a1 & a2 & H & _). discriminate. }
    rewrite <- app_comm_cons. cbn [strsplit_pure].
    destruct (parse_string bytes sep0) as [m|v].
    { split; [discriminate|]. intros (a1 & a2 & H & _). discriminate. }
    split.
    + destruct (strsplit_pure (x1 ++ x2) sep0 (i + 1)) as [e|l] eqn:Hx;
        [discriminate|].
      intros [= <-]. apply IH in Hx as (a1 & a2 & H1 & H2 & ->).
      exists (INTSXP v :: a1), a2. rewrite H1.
      repeat split. eapply strsplit_pure_shift; eassumption.
    + intros (a1 & a2 & H1 & H2 & ->).
      destruct (strsplit_pure x1 sep0 (i + 1)) as [e|l] eqn:Hx; [discriminate|].
      injection H1 as <-.
      assert (Hx' : strsplit_pure (x1 ++ x2) sep0 (i + 1) = Rreturn (l ++ a2)).
      { apply IH. exists l, a2. repeat split; [assumption|].
        eapply strsplit_pure_shift; eassumption. }
      now rewrite Hx'.
Qed.

(** X8: the strings of a batch are handled independently: a batch that is
    the concatenation of two batches returns exactly when both do, and then
    returns the concatenation of their results. *)
Theorem X8_batch_append (x1 x2 sep : STRSXP) (g : globals) (ans : VECSXP) :
  strsplit (x1 ++ x2) sep g = Some (Rreturn ans) <->
  exists a1 a2,
    strsplit x1 sep g = Some (Rreturn a1) /\
    strsplit x2 sep g = Some (Rreturn a2) /\ ans = a1 ++ a2.
Proof.
  destruct (bad_sep (sep_char sep)) eqn:Hsep.
  - rewrite !strsplit_bad_sep by exact Hsep. split; [discriminate|].
    intros (a1 & a2 & H & _). discriminate.
  - rewrite !strsplit_spec by exact Hsep. split.
    + intros [= H]. apply strsplit_pure_app in H as (a1 & a2 & H1 & H2 & ->).
      exists a1, a2. now rewrite H1, H2.
    + intros (a1 & a2 & [= H1] & [= H2] & ->). f_equal.
      apply strsplit_pure_app. now exists a1, a2.
Qed.

(** * Further properties of [safe_strexplode] *)

Lemma mkChar_one c :
  mkChar [c; NUL] = if is_nul c then R_BlankString else mkCharLen [c].
Proof. unfold mkChar. cbn [until_nul]. now destruct (is_nul c). Qed.

(** X9: for every first element of [s], a string with zero bytes or the NA
    string included, and whatever else [s] holds, the result has as many
    elements as that element has bytes; element [i] is the one-byte string of
    byte [i], or the empty string when that byte is zero; no element is NA.
    The NA string itself explodes to its two letters. *)
Theorem X9_strexplode_any_input (s0 : CHARSXP) (more : STRSXP) :
  length (safe_strexplode (s0 :: more)) = LENGTH_CHARSXP s0
  /\
  (forall i, i < LENGTH_CHARSXP s0 ->
     STRING_ELT (safe_strexplode (s0 :: more)) i
     = if is_nul (char_at (CHAR s0) i) then R_BlankString
       else mkCharLen [char_at (CHAR s0) i])
  /\
  ~ In NA_STRING (safe_strexplode (s0 :: more))
  /\
  safe_strexplode (NA_STRING :: more) = [Str "N"; Str "A"].
Proof.
  rewrite !safe_strexplode_map. unfold LENGTH_CHARSXP, STRING_ELT.
  split; [apply length_map|]. split; [|split].
  - intros i Hi.
    rewrite (nth_indep _ R_BlankString (mkChar [NUL; NUL]))
      by (rewrite length_map; exact Hi).
    change (mkChar [NUL; NUL]) with ((fun c => mkChar [c; NUL]) NUL).
    rewrite map_nth. apply mkChar_one.
  - intros Hin. apply in_map_iff in Hin as (c & Hc & _). discriminate.
  - reflexivity.
Qed.

(** * Further properties of the scan *)

(** One iteration of the loop over any token the conversion reads. *)
Lemma parse_loop_step fuel sep0 pre tok v bl tail acc :
  is_nul (char_at (tok ++ bl ++ tail) 0) = false ->
  scan_token (tok ++ bl ++ tail) = Some (v, length tok) ->
  (INT_MIN <= v <= INT_MAX)%Z ->
  forallb isblank bl = true -> starts_with isblank tail = false ->
  parse_loop (S fuel) (pre ++ tok ++ bl ++ tail) sep0 (length pre) acc
  = if is_nul (char_at tail 0) then Some (inr (acc ++ [v]))
    else if negb (Ascii.eqb (char_at tail 0) sep0)
    then Some (inl (separator_expected_at_char (length (pre ++ tok ++ bl) + 1)))
    else parse_loop fuel (pre ++ tok ++ bl ++ tail) sep0
           (length (pre ++ tok ++ bl) + 1) (acc ++ [v]).
Proof.
  intros Hhead Hscan Hv Hbl Hblank.
  cbn [parse_loop].
  rewrite <- (Nat.add_0_r (length pre)) at 1. rewrite char_at_app, Hhead.
  rewrite skipn_app_length.
  unfold sscanf_ld. rewrite Hscan.
  rewrite strtol_clamp_int, in_range_check by assumption.
  assert (S1 : skipn (length (pre ++ tok)) (pre ++ tok ++ bl ++ tail) = bl ++ tail).
  { replace (pre ++ tok ++ bl ++ tail) with ((pre ++ tok) ++ bl ++ tail)
      by (now rewrite <- !app_assoc).
    apply skipn_app_length. }
  assert (C2 : char_at (pre ++ tok ++ bl ++ tail) (length (pre ++ tok ++ bl))
               = char_at tail 0).
  { replace (pre ++ tok ++ bl ++ tail) with ((pre ++ tok ++ bl) ++ tail)
      by (now rewrite <- !app_assoc).
    rewrite <- (Nat.add_0_r (length _)). apply char_at_app. }
  replace (length pre + length tok) with (length (pre ++ tok))
    by (rewrite !length_app; lia).
  rewrite S1, span_length_app by assumption.
  replace (length (pre ++ tok) + length bl) with (length (pre ++ tok ++ bl))
    by (rewrite !length_app; lia).
  rewrite C2. reflexivity.
Qed.

Lemma char_at_head text rest :
  is_nul (char_at text 0) = false -> char_at (text ++ rest) 0 = char_at text 0.
Proof. destruct text as [|h text]; [discriminate | reflexivity]. Qed.

Lemma parse_loop_join_readable c :
  isdigit c = false -> isblank c = false -> is_nul c = false ->
  forall (toks : list (list ascii * Z)) pre acc fuel,
    toks <> [] ->
    Forall (fun tv => readable (fst tv) (snd tv)) toks ->
    length toks <= fuel ->
    parse_loop fuel (pre ++ join c (map fst toks)) c (length pre) acc
    = Some (inr (acc ++ map snd toks)).
Proof.
  intros Hdig Hblank Hnul.
  induction toks as [|[text v] toks IH]; intros pre acc fuel Hne Hok Hfuel;
    [contradiction|].
  inversion Hok as [|? ? Hr Hok']; subst. destruct Hr as (Hh & Hv & Hscan).
  cbn [fst snd] in *.
  destruct fuel as [|fuel]; [simpl in Hfuel; lia|].
  assert (Hstep : forall tail,
             starts_with isdigit tail = false ->
             starts_with isblank tail = false ->
             parse_loop (S fuel) (pre ++ text ++ tail) c (length pre) acc
             = if is_nul (char_at tail 0) then Some (inr (acc ++ [v]))
               else if negb (Ascii.eqb (char_at tail 0) c)
               then Some (inl (separator_expected_at_char
                                 (length (pre ++ text) + 1)))
               else parse_loop fuel (pre ++ text ++ tail) c
                      (length (pre ++ text) + 1) (acc ++ [v])).
  { intros tail Hd Hb.
    pose proof (parse_loop_step fuel c pre text v [] tail acc) as Hs.
    rewrite !app_nil_l, app_nil_r in Hs. apply Hs; auto.
    now rewrite char_at_head. }
  destruct toks as [|t2 toks].
  - cbn [map join fst snd].
    replace text with (text ++ []) at 1 by now rewrite app_nil_r.
    rewrite Hstep by reflexivity. reflexivity.
  - change (map fst ((text, v) :: t2 :: toks))
      with (text :: map fst (t2 :: toks)).
    rewrite join_cons by discriminate.
    set (J := join c (map fst (t2 :: toks))) in *.
    rewrite Hstep by assumption.
    cbn [char_at nth]. rewrite Hnul, Ascii.eqb_refl. cbn [negb].
    specialize (IH (pre ++ text ++ [c]) (acc ++ [v]) fuel).
    replace (length (pre ++ text) + 1) with (length (pre ++ text ++ [c]))
      by (rewrite !length_app; simpl; lia).
    replace (pre ++ text ++ c :: J) with ((pre ++ text ++ [c]) ++ J)
      by (rewrite <- !app_assoc; reflexivity).
    rewrite IH; [|discriminate|exact Hok'|simpl in *; lia].
    cbn [map snd]. rewrite <- app_assoc. reflexivity.
Qed.

Lemma scan_digits_zeros k l :
  scan_digits 0 (repeat "0" k ++ l)
  = let (v, n) := scan_digits 0 l in (v, k + n).
Proof.
  induction k as [|k IH]; cbn [repeat].
  - rewrite app_nil_l. now destruct (scan_digits 0 l).
  - rewrite <- app_comm_cons, scan_digits_cons by reflexivity.
    change (10 * 0 + digit_value "0")%Z with 0%Z. rewrite IH.
    now destruct (scan_digits 0 l).
Qed.

Lemma zeros_decimal_head k m rest :
  starts_with isdigit (repeat "0" k ++ decimal m ++ rest) = true.
Proof.
  destruct k as [|k]; [|reflexivity]. cbn [repeat]. rewrite app_nil_l.
  pose proof (decimal_head m) as H.
  now destruct (decimal m) as [|c l]; [discriminate|].
Qed.

Lemma scan_token_signed sgn D :
  starts_with isdigit D = true ->
  scan_token (sign_text sgn ++ D)
  = Some (match sgn with
          | minus_sign => (- fst (scan_digits 0 D))%Z
          | _ => fst (scan_digits 0 D)
          end,
          length (sign_text sgn) + snd (scan_digits 0 D)).
Proof.
  destruct D as [|c D]; [discriminate|]. cbn [starts_with]. intros Hd.
  destruct (isdigit_props c Hd) as (Hsp & _ & _ & Hm & Hp).
  unfold scan_token.
  destruct sgn; unfold sign_text; rewrite ?app_nil_l, <- ?app_comm_cons;
    cbn [span_length].
  - rewrite Hsp. cbn [skipn]. unfold scan_sign. rewrite Hm, Hp. cbn [skipn].
    rewrite Hd. now destruct (scan_digits 0 (c :: D)).
  - replace (isspace "+") with false by reflexivity. cbn [skipn].
    unfold scan_sign. replace (Ascii.eqb "+" "-") with false by reflexivity.
    replace (Ascii.eqb "+" "+") with true by reflexivity. cbn [skipn].
    rewrite app_nil_l, Hd. now destruct (scan_digits 0 (c :: D)).
  - replace (isspace "-") with false by reflexivity. cbn [skipn].
    unfold scan_sign. replace (Ascii.eqb "-" "-") with true by reflexivity.
    cbn [skipn]. rewrite app_nil_l, Hd. now destruct (scan_digits 0 (c :: D)).
Qed.

Lemma token_readable t : token_ok t = true -> readable (token_text t) (token_value t).
Proof.
  destruct t as [[s k] m]. unfold token_ok.
  intros H. apply andb_prop in H as [H H2]. apply andb_prop in H as [H0 H1].
  apply Z.leb_le in H0. apply Z.leb_le in H1. apply Z.leb_le in H2.
  split; [|split; [split; assumption|]].
  - cbn [token_text]. 
    pose proof (zeros_decimal_head k m []) as Hd. rewrite app_nil_r in Hd.
    destruct (repeat "0" k ++ decimal m) as [|c D]; [discriminate|].
    cbn [starts_with] in Hd.
    destruct s; unfold sign_text; rewrite ?app_nil_l, <- ?app_comm_cons;
      try reflexivity.
    cbn [char_at nth]. apply (isdigit_props c Hd).
  - intros rest Hrest. cbn [token_text]. rewrite <- !app_assoc.
    rewrite scan_token_signed by apply zeros_decimal_head.
    rewrite scan_digits_zeros, scan_digits_decimal by assumption.
    cbn [fst snd token_value]. rewrite !length_app, repeat_length.
    now destruct s.
Qed.

(** Tokens joined by an accepted separator parse to the [int]s they
    denote. *)
Lemma strsplit_tokens (toks : list token) (c : ascii) (g : globals) :
  toks <> [] -> forallb token_ok toks = true ->
  isdigit c = false -> c <> "+" -> c <> "-" ->
  isblank c = false -> c <> NUL ->
  strsplit [mkCharLen (join c (map token_text toks))] [mkCharLen [c]] g
  = Some (Rreturn [INTSXP (map token_value toks)]).
Proof.
  intros Hne Hok Hd Hp Hm Hb Hn.
  rewrite strsplit_single by (apply good_sep; assumption).
  change (sep_char [mkCharLen [c]]) with c.
  set (tvs := map (fun t => (token_text t, token_value t)) toks).
  assert (E1 : map fst tvs = map token_text toks)
    by (unfold tvs; rewrite map_map; reflexivity).
  assert (E2 : map snd tvs = map token_value toks)
    by (unfold tvs; rewrite map_map; reflexivity).
  rewrite <- E1, <- E2.
  rewrite (parse_string_fuel _ _ (length tvs) (inr (map snd tvs))); [reflexivity|].
  apply (parse_loop_join_readable c Hd Hb (not_nul c Hn) tvs [] [] (length tvs)).
  - unfold tvs. destruct toks; [contradiction | discriminate].
  - unfold tvs. apply Forall_map. apply Forall_forall. intros t Ht.
    apply token_readable. rewrite forallb_forall in Hok. now apply Hok.
  - lia.
Qed.

Lemma token_is_int_ok toks :
  forallb token_is_int toks = true ->
  forallb token_ok toks = true /\ ~ In NA_INTEGER (map token_value toks).
Proof.
  induction toks as [|t toks IH]; [intros _; split; [reflexivity | intros []]|].
  cbn [forallb map]. intros H. apply andb_prop in H as [Ht Hts].
  unfold token_is_int in Ht. apply andb_prop in Ht as [Hok Hna].
  apply negb_true_iff, Z.eqb_neq in Hna.
  destruct (IH Hts) as [Hoks Hnas]. split.
  - now rewrite Hok, Hoks.
  - intros [E|Hin]; [now apply Hna | now apply Hnas].
Qed.

(** X10: the round trip holds for every way the conversion accepts an
    integer to be written: with an explicit ['+'] or ['-'] sign and with
    leading zeros, for all values from [INT_MIN + 1] to [INT_MAX], that is
    for every [int] that is not R's missing value.  Joined by a separator
    that is not a digit, a sign, a blank or NUL, such tokens parse to
    exactly their values, none of which is missing. *)
Theorem X10_signed_round_trip (toks : list token) (c : ascii) (g : globals) :
  toks <> [] -> forallb token_is_int toks = true ->
  isdigit c = false -> c <> "+" -> c <> "-" ->
  isblank c = false -> c <> NUL ->
  strsplit [mkCharLen (join c (map token_text toks))] [mkCharLen [c]] g
  = Some (Rreturn [INTSXP (map token_value toks)])
  /\ ~ In NA_INTEGER (map token_value toks).
Proof.
  intros Hne Hok Hd Hp Hm Hb Hn.
  destruct (token_is_int_ok toks Hok) as [Hoks Hna].
  split; [|exact Hna]. now apply strsplit_tokens.
Qed.

Lemma X10_signed_round_trip_witness :
  strsplit
    [mkCharLen (join ";" (map token_text
       [(minus_sign, 0, 2147483647%Z); (plus_sign, 2, 7%Z); (no_sign, 1, 0%Z);
        (minus_sign, 0, 0%Z)]))]
    [mkCharLen [";"]] initial_globals
  = Some (Rreturn [INTSXP (map token_value
       [(minus_sign, 0, 2147483647%Z); (plus_sign, 2, 7%Z); (no_sign, 1, 0%Z);
        (minus_sign, 0, 0%Z)])])
  /\
  ~ In NA_INTEGER (map token_value
       [(minus_sign, 0, 2147483647%Z); (plus_sign, 2, 7%Z); (no_sign, 1, 0%Z);
        (minus_sign, 0, 0%Z)]).
Proof.
  apply (X10_signed_round_trip
           [(minus_sign, 0, 2147483647%Z); (plus_sign, 2, 7%Z); (no_sign, 1, 0%Z);
            (minus_sign, 0, 0%Z)] ";" initial_globals).
  - discriminate.
  - reflexivity.
  - reflexivity.
  - discriminate.
  - discriminate.
  - reflexivity.
  - discriminate.
Defined.

(** X17: the range check lets [INT_MIN] through: a token that denotes
    -2147483648, with any number of leading zeros, is accepted with every
    accepted separator, and the element stored for it is the [int] that R
    reads as a missing value. *)
Theorem X17_int_min_is_NA (k : nat) (sep : STRSXP) (g : globals) :
  bad_sep (sep_char sep) = false ->
  strsplit [mkCharLen (token_text (minus_sign, k, 2147483648%Z))] sep g
  = Some (Rreturn [INTSXP [NA_INTEGER]]).
Proof.
  intros Hsep. rewrite strsplit_single by exact Hsep.
  destruct (token_readable (minus_sign, k, 2147483648%Z) eq_refl)
    as (Hh & Hv & Hscan).
  pose proof (parse_loop_step 0 (sep_char sep) []
                (token_text (minus_sign, k, 2147483648%Z))
                (token_value (minus_sign, k, 2147483648%Z)) [] [] []) as Hs.
  rewrite !app_nil_l, !app_nil_r in Hs.
  pose proof (Hscan [] eq_refl) as Hsc. rewrite app_nil_r in Hsc.
  specialize (Hs Hh Hsc Hv eq_refl eq_refl).
  rewrite (parse_string_fuel _ _ 1 (inr [NA_INTEGER])); [reflexivity|].
  exact Hs.
Qed.

Lemma X17_int_min_is_NA_witness :
  strsplit [mkCharLen (token_text (minus_sign, 2, 2147483648%Z))] [Str ","]
    initial_globals
  = Some (Rreturn [INTSXP [NA_INTEGER]]).
Proof. apply X17_int_min_is_NA. reflexivity. Defined.

Lemma isblank_sep c :
  isblank c = true -> bad_sep c = false /\ isdigit c = false /\ is_nul c = false.
Proof.
  destruct c as [[] [] [] [] [] [] [] []]; vm_compute; intros H;
    try discriminate H; repeat split.
Qed.

Lemma token_head t rest :
  starts_with isblank (token_text t ++ rest) = false /\
  is_nul (char_at (token_text t ++ rest) 0) = false.
Proof.
  destruct t as [[s k] m]. cbn [token_text]. rewrite <- !app_assoc.
  pose proof (zeros_decimal_head k m rest) as Hd.
  destruct (repeat "0" k ++ decimal m ++ rest) as [|c D]; [discriminate|].
  cbn [starts_with] in Hd. destruct (isdigit_props c Hd) as (_ & Hb & Hn & _).
  destruct s; unfold sign_text; rewrite ?app_nil_l, <- ?app_comm_cons;
    cbn [starts_with char_at nth]; split; (assumption || reflexivity).
Qed.

(** X11: a blank (space or tab) passes the separator check but cannot
    separate tokens: the blank after the first token is skipped as padding,
    so a string with a second token after it fails with "separator expected"
    at the first character of that token. *)
Theorem X11_blank_separator_fails (c : ascii) (t1 t2 : token)
    (rest : list ascii) (g : globals) :
  isblank c = true -> token_ok t1 = true ->
  strsplit [mkCharLen (token_text t1 ++ c :: token_text t2 ++ rest)]
    [mkCharLen [c]] g
  = Some (Rerror (in_list_element 1
            (separator_expected_at_char (length (token_text t1) + 2)))).
Proof.
  intros Hc Ht1.
  destruct (isblank_sep c Hc) as (Hsep & Hdig & Hnul).
  destruct (token_readable t1 Ht1) as (Hh & Hv & Hscan).
  destruct (token_head t2 rest) as (Hb2 & Hn2).
  rewrite strsplit_single by exact Hsep.
  change (sep_char [mkCharLen [c]]) with c.
  pose proof (parse_loop_step 0 c [] (token_text t1) (token_value t1) [c]
                (token_text t2 ++ rest) []) as Hs.
  rewrite !app_nil_l in Hs.
  change ([c] ++ token_text t2 ++ rest) with (c :: token_text t2 ++ rest) in Hs.
  rewrite Hn2 in Hs.
  assert (Hne : Ascii.eqb (char_at (token_text t2 ++ rest) 0) c = false).
  { destruct (Ascii.eqb_spec (char_at (token_text t2 ++ rest) 0) c) as [E|_];
      [|reflexivity].
    destruct (token_text t2 ++ rest) as [|h l]; [discriminate|].
    cbn [char_at nth starts_with] in *. subst h. congruence. }
  rewrite Hne in Hs. cbn [negb] in Hs.
  assert (Hrun : parse_loop 1 (token_text t1 ++ c :: token_text t2 ++ rest) c 0 []
                 = Some (inl (separator_expected_at_char
                                (length (token_text t1 ++ [c]) + 1)))).
  { apply Hs.
    - now rewrite char_at_head.
    - apply Hscan. exact Hdig.
    - exact Hv.
    - cbn [forallb]. now rewrite Hc.
    - exact Hb2. }
  rewrite (parse_string_fuel _ _ 1 _ Hrun).
  rewrite length_app. cbn [length].
  replace (length (token_text t1) + 1 + 1) with (length (token_text t1) + 2)
    by lia.
  reflexivity.
Qed.

Lemma X11_blank_separator_fails_witness :
  strsplit [mkCharLen (token_text (no_sign, 0, 10%Z) ++ " "
                         :: token_text (minus_sign, 0, 3%Z) ++ cstr " 4")]
    [mkCharLen [" "]] initial_globals
  = Some (Rerror (in_list_element 1
            (separator_expected_at_char
               (length (token_text (no_sign, 0, 10%Z)) + 2)))).
Proof.
  apply (X11_blank_separator_fails " " (no_sign, 0, 10%Z) (minus_sign, 0, 3%Z)
           (cstr " 4") initial_globals); reflexivity.
Defined.





(** * Properties of [get_svn_time] and [svn_time] *)

Example svn_time_of_the_header_comment :
  svn_text clock_2007 (time_NULL clock_2007)
  = cstr "2007-12-07 10:03:15 -0800 (Fri, 07 Dec 2007)".
Proof. reflexivity. Qed.

Lemma digit_value_range c : isdigit c = true -> (0 <= digit_value c <= 9)%Z.
Proof.
  unfold isdigit, digit_value. intros H. apply andb_prop in H as [H1 H2].
  apply Nat.leb_le in H1. apply Nat.leb_le in H2. lia.
Qed.

Lemma scan_digits_bound l :
  forall acc, (0 <= acc)%Z ->
    (fst (scan_digits acc l) < (acc + 1) * 10 ^ Z.of_nat (snd (scan_digits acc l)))%Z.
Proof.
  induction l as [|c l IH]; intros acc Hacc; cbn [scan_digits].
  - simpl. lia.
  - destruct (isdigit c) eqn:Hc; [|simpl; lia].
    pose proof (digit_value_range c Hc) as Hd.
    specialize (IH (10 * acc + digit_value c)%Z ltac:(lia)).
    destruct (scan_digits (10 * acc + digit_value c) l) as [v k].
    cbn [fst snd] in *. rewrite Nat2Z.inj_succ, Z.pow_succ_r by lia.
    assert (0 < 10 ^ Z.of_nat k)%Z by (apply Z.pow_pos_nonneg; lia).
    nia.
Qed.

Lemma decimal_value_lt v :
  (0 <= v)%Z -> (v < 10 ^ Z.of_nat (length (decimal v)))%Z.
Proof.
  intros Hv. pose proof (scan_digits_bound (decimal v ++ []) 0 ltac:(lia)) as H.
  rewrite scan_digits_decimal in H by (assumption || reflexivity).
  cbn [fst snd] in H. lia.
Qed.

Lemma decimal_length_ge v k :
  (10 ^ Z.of_nat k <= v)%Z -> k < length (decimal v).
Proof.
  intros Hv.
  assert (0 <= v)%Z by (pose proof (Z.pow_nonneg 10 (Z.of_nat k)); lia).
  pose proof (decimal_value_lt v H) as Hlt.
  destruct (Nat.lt_ge_cases k (length (decimal v))) as [Hk|Hk]; [exact Hk|].
  assert (10 ^ Z.of_nat (length (decimal v)) <= 10 ^ Z.of_nat k)%Z
    by (apply Z.pow_le_mono_r; lia).
  lia.
Qed.

Lemma decimal_length_small_check :
  forallb (fun n => (length (decimal (Z.of_nat n))
                     <=? if n <? 10 then 1 else if n <? 100 then 2
                         else if n <? 1000 then 3 else 4)%nat)
          (seq 0 (100 * 100)) = true.
Proof. vm_compute. reflexivity. Qed.

Lemma decimal_length_small v :
  (0 <= v <= 9999)%Z ->
  length (decimal v)
  <= if (v <? 10)%Z then 1 else if (v <? 100)%Z then 2
     else if (v <? 1000)%Z then 3 else 4.
Proof.
  intros Hv. pose proof decimal_length_small_check as H.
  rewrite forallb_forall in H. specialize (H (Z.to_nat v)).
  rewrite Z2Nat.id in H by lia.
  assert (Hin : In (Z.to_nat v) (seq 0 (100 * 100))) by (apply in_seq; lia).
  apply H in Hin. apply Nat.leb_le in Hin.
  destruct (Z.ltb_spec v 10), (Nat.ltb_spec (Z.to_nat v) 10); try lia.
  destruct (Z.ltb_spec v 100), (Nat.ltb_spec (Z.to_nat v) 100); try lia.
  destruct (Z.ltb_spec v 1000), (Nat.ltb_spec (Z.to_nat v) 1000); try lia.
Qed.

Lemma decimal_length_2 v : (0 <= v <= 99)%Z -> length (decimal v) <= 2.
Proof.
  intros Hv. pose proof (decimal_length_small v ltac:(lia)) as H. revert H.
  destruct (Z.ltb_spec v 10); [lia|]. destruct (Z.ltb_spec v 100); lia.
Qed.

Lemma decimal_length_4 v : (0 <= v <= 9999)%Z -> length (decimal v) <= 4.
Proof.
  intros Hv. pose proof (decimal_length_small v Hv) as H. revert H.
  destruct (v <? 10)%Z; [lia|]. destruct (v <? 100)%Z; [lia|].
  destruct (v <? 1000)%Z; lia.
Qed.

Lemma zero_pad_length width sg digits :
  length (zero_pad width sg digits)
  = Nat.max width (length sg + length digits).
Proof. unfold zero_pad. rewrite !length_app, repeat_length. lia. Qed.

Lemma printf_02d_length v : (0 <= v <= 99)%Z -> length (printf_02d v) = 2.
Proof.
  intros Hv. unfold printf_02d. rewrite zero_pad_length.
  destruct (Z.ltb_spec v 0) as [Hneg|_]; [lia|]. rewrite Z.abs_eq by lia.
  pose proof (decimal_length_2 v Hv). cbn [length]. lia.
Qed.

Lemma printf_02d_length_ge v : 2 <= length (printf_02d v).
Proof. unfold printf_02d. rewrite zero_pad_length. lia. Qed.

Lemma printf_plus03d_length v : (-99 <= v <= 99)%Z -> length (printf_plus03d v) = 3.
Proof.
  intros Hv. unfold printf_plus03d. rewrite zero_pad_length.
  pose proof (decimal_length_2 (Z.abs v) ltac:(lia)) as Hlen.
  assert (Hs : length (if (v <? 0)%Z then ["-"] else ["+"]) = 1)
    by now destruct (v <? 0)%Z.
  rewrite Hs. lia.
Qed.

Lemma printf_plus03d_length_ge v : 3 <= length (printf_plus03d v).
Proof. unfold printf_plus03d. rewrite zero_pad_length. lia. Qed.

Lemma printf_d_length v :
  (0 <= v <= 9999)%Z ->
  length (printf_d v) <= 4 /\ ((1000 <= v)%Z -> length (printf_d v) = 4).
Proof.
  intros Hv. unfold printf_d. rewrite zero_pad_length.
  destruct (Z.ltb_spec v 0) as [Hneg|_]; [lia|]. rewrite Z.abs_eq by lia.
  pose proof (decimal_length_4 v Hv) as Hlen. cbn [length].
  split; [lia|].
  intros H3. pose proof (decimal_length_ge v 3 ltac:(simpl; lia)) as Hge. lia.
Qed.

Lemma printf_d_length_ge v : (10000 <= v)%Z -> 5 <= length (printf_d v).
Proof.
  intros Hv. unfold printf_d. rewrite zero_pad_length.
  rewrite Z.abs_eq by lia.
  pose proof (decimal_length_ge v 4 ltac:(simpl; lia)). lia.
Qed.

Lemma wday2str_length i :
  (0 <= i <= 6)%Z -> length (array_get wday2str i) = 3.
Proof.
  intros Hi.
  assert (H : (i = 0 \/ i = 1 \/ i = 2 \/ i = 3 \/ i = 4 \/ i = 5 \/ i = 6)%Z) by lia.
  repeat (destruct H as [->|H]; [reflexivity|]). now subst.
Qed.

Lemma mon2str_length i :
  (0 <= i <= 11)%Z -> length (array_get mon2str i) = 3.
Proof.
  intros Hi.
  assert (H : (i = 0 \/ i = 1 \/ i = 2 \/ i = 3 \/ i = 4 \/ i = 5 \/ i = 6 \/
               i = 7 \/ i = 8 \/ i = 9 \/ i = 10 \/ i = 11)%Z) by lia.
  repeat (destruct H as [->|H]; [reflexivity|]). now subst.
Qed.

Lemma svn_format_length a1 a2 a3 a4 a5 a6 a7 a8 a9 a10 a11 :
  length (svn_format a1 a2 a3 a4 a5 a6 a7 a8 a9 a10 a11)
  = length (printf_d a1) + length (printf_02d a2) + length (printf_02d a3)
    + length (printf_02d a4) + length (printf_02d a5) + length (printf_02d a6)
    + length (printf_plus03d a7) + length a8 + length (printf_02d a9)
    + length a10 + length (printf_d a11) + 15.
Proof.
  unfold svn_format.
  repeat (rewrite length_app || cbn [length cstr list_ascii_of_string]).
  lia.
Qed.

Lemma svn_utc_offset_range ck r :
  (-86400 <= timezone ck <= 86400)%Z -> (-99 <= svn_utc_offset ck r <= 99)%Z.
Proof.
  intros Htz. unfold svn_utc_offset.
  assert (-24 <= Z.quot (timezone ck) 3600 <= 24)%Z.
  { split.
    - apply (Z.quot_le_mono (-86400) (timezone ck) 3600); lia.
    - apply (Z.quot_le_mono (timezone ck) 86400 3600); lia. }
  destruct (0 <? tm_isdst r)%Z; lia.
Qed.

Lemma svn_text_length ck t :
  tm_in_range (localtime_r ck t) ->
  (-86400 <= timezone ck <= 86400)%Z ->
  length (svn_text ck t)
  = 2 * length (printf_d (tm_year (localtime_r ck t) + 1900)) + 36.
Proof.
  intros (Hsec & Hmin & Hhour & Hmday & Hmon & Hwday) Htz.
  unfold svn_text. rewrite svn_format_length.
  rewrite !printf_02d_length by lia.
  rewrite printf_plus03d_length by (apply svn_utc_offset_range; exact Htz).
  rewrite wday2str_length, mon2str_length by assumption. lia.
Qed.

(** X13: the size the source documents for [out] is right: when
    [localtime_r] keeps the fields in their ranges, [timezone] is within a
    day of UTC and the year is between 0 and 9999, the formatted text has at
    most 44 characters (exactly 44 from year 1000 on), so with [out_size] at
    least 45 [get_svn_time] returns 0 and [out] holds the whole text. *)
Theorem X13_get_svn_time_fits (ck : clock) (t : Z) (out_size : nat) :
  tm_in_range (localtime_r ck t) ->
  (-86400 <= timezone ck <= 86400)%Z ->
  (0 <= tm_year (localtime_r ck t) + 1900 <= 9999)%Z ->
  45 <= out_size ->
  length (svn_text ck t) <= 44 /\
  ((1000 <= tm_year (localtime_r ck t) + 1900)%Z -> length (svn_text ck t) = 44) /\
  get_svn_time ck t out_size = (0%Z, svn_text ck t).
Proof.
  intros Htm Htz Hyear Hsize.
  pose proof (svn_text_length ck t Htm Htz) as Hlen.
  destruct (printf_d_length _ Hyear) as [Hle Heq].
  split; [lia|]. split; [intros Hy; specialize (Heq Hy); lia|].
  unfold get_svn_time, snprintf.
  destruct (Nat.leb_spec out_size (length (svn_text ck t))); [lia|].
  f_equal. apply firstn_all2. lia.
Qed.

Lemma X13_get_svn_time_fits_witness :
  length (svn_text clock_2007 1197050595) <= 44 /\
  ((1000 <= tm_year (localtime_r clock_2007 1197050595) + 1900)%Z ->
   length (svn_text clock_2007 1197050595) = 44) /\
  get_svn_time clock_2007 1197050595 45 = (0%Z, svn_text clock_2007 1197050595).
Proof.
  apply (X13_get_svn_time_fits clock_2007 1197050595 45).
  - unfold tm_in_range. simpl. lia.
  - simpl. lia.
  - simpl. lia.
  - lia.
Defined.

(** X14: from year 10000 on the text is at least 46 characters long, so
    [get_svn_time] with the 45 bytes of [svn_time] returns -1, and
    [svn_time] raises its "get_svn_time() failed" error instead of returning
    a truncated string. *)
Theorem X14_svn_time_year_10000 (ck : clock) :
  time_NULL ck <> (-1)%Z ->
  (0 <= tm_wday (localtime_r ck (time_NULL ck)) <= 6)%Z ->
  (0 <= tm_mon (localtime_r ck (time_NULL ck)) <= 11)%Z ->
  (10000 <= tm_year (localtime_r ck (time_NULL ck)) + 1900)%Z ->
  46 <= length (svn_text ck (time_NULL ck)) /\
  fst (get_svn_time ck (time_NULL ck) 45) = (-1)%Z /\
  svn_time ck = inl get_svn_time_failed.
Proof.
  intros Ht Hwday Hmon Hyear.
  assert (Hlen : 46 <= length (svn_text ck (time_NULL ck))).
  { unfold svn_text. rewrite svn_format_length.
    rewrite wday2str_length, mon2str_length by assumption.
    pose proof (printf_d_length_ge _ Hyear).
    pose proof (printf_02d_length_ge (tm_mon (localtime_r ck (time_NULL ck)) + 1)).
    pose proof (printf_02d_length_ge (tm_mday (localtime_r ck (time_NULL ck)))).
    pose proof (printf_02d_length_ge (tm_hour (localtime_r ck (time_NULL ck)))).
    pose proof (printf_02d_length_ge (tm_min (localtime_r ck (time_NULL ck)))).
    pose proof (printf_02d_length_ge (tm_sec (localtime_r ck (time_NULL ck)))).
    pose proof (printf_plus03d_length_ge
                  (svn_utc_offset ck (localtime_r ck (time_NULL ck)))).
    lia. }
  assert (Hr : fst (get_svn_time ck (time_NULL ck) 45) = (-1)%Z).
  { unfold get_svn_time, snprintf. cbn [fst].
    destruct (Nat.leb_spec 45 (length (svn_text ck (time_NULL ck)))); [reflexivity | lia]. }
  repeat split; try assumption.
  unfold svn_time. destruct (Z.eqb_spec (time_NULL ck) (-1)); [contradiction|].
  destruct (get_svn_time ck (time_NULL ck) 45) as [r buf]. cbn [fst] in Hr.
  now subst r.
Qed.

Lemma X14_svn_time_year_10000_witness :
  46 <= length (svn_text clock_10000 (time_NULL clock_10000)) /\
  fst (get_svn_time clock_10000 (time_NULL clock_10000) 45) = (-1)%Z /\
  svn_time clock_10000 = inl get_svn_time_failed.
Proof.
  apply (X14_svn_time_year_10000 clock_10000).
  - discriminate.
  - simpl. lia.
  - simpl. lia.
  - simpl. lia.
Defined.

Lemma until_nul_no_nul l : no_nul l = true -> until_nul l = l.
Proof.
  induction l as [|c l IH]; [reflexivity|]. cbn [no_nul forallb until_nul].
  intros H. apply andb_prop in H as [Hc Hl]. apply negb_true_iff in Hc.
  rewrite Hc. f_equal. now apply IH.
Qed.

Lemma no_nul_app l1 l2 : no_nul (l1 ++ l2) = no_nul l1 && no_nul l2.
Proof. apply forallb_app. Qed.

Lemma no_nul_cons c l : no_nul (c :: l) = negb (is_nul c) && no_nul l.
Proof. reflexivity. Qed.

Lemma digits_of_no_nul d : no_nul (digits_of d) = true.
Proof. induction d; try reflexivity; cbn; exact IHd. Qed.

Lemma decimal_no_nul v : no_nul (decimal v) = true.
Proof. rewrite decimal_digits. apply digits_of_no_nul. Qed.

Lemma zero_pad_no_nul width sg digits :
  no_nul sg = true -> no_nul digits = true ->
  no_nul (zero_pad width sg digits) = true.
Proof.
  intros Hs Hd. unfold zero_pad. rewrite !no_nul_app, Hs, Hd.
  induction (width - length sg - length digits) as [|k IH]; [reflexivity|].
  cbn [repeat]. rewrite no_nul_cons. exact IH.
Qed.

Lemma printf_d_no_nul v : no_nul (printf_d v) = true.
Proof.
  unfold printf_d. apply zero_pad_no_nul; [now destruct (v <? 0)%Z|].
  apply decimal_no_nul.
Qed.

Lemma printf_02d_no_nul v : no_nul (printf_02d v) = true.
Proof.
  unfold printf_02d. apply zero_pad_no_nul; [now destruct (v <? 0)%Z|].
  apply decimal_no_nul.
Qed.

Lemma printf_plus03d_no_nul v : no_nul (printf_plus03d v) = true.
Proof.
  unfold printf_plus03d. apply zero_pad_no_nul; [now destruct (v <? 0)%Z|].
  apply decimal_no_nul.
Qed.

Lemma array_get_no_nul a i :
  forallb no_nul a = true -> no_nul (array_get a i) = true.
Proof.
  intros Ha. unfold array_get. destruct (i <? 0)%Z; [reflexivity|].
  destruct (Nat.lt_ge_cases (Z.to_nat i) (length a)) as [Hlt|Hge].
  - rewrite forallb_forall in Ha. apply Ha. now apply nth_In.
  - now rewrite nth_overflow.
Qed.

Lemma svn_text_no_nul ck t : no_nul (svn_text ck t) = true.
Proof.
  unfold svn_text, svn_format.
  repeat (rewrite no_nul_app || rewrite no_nul_cons
          || rewrite printf_d_no_nul || rewrite printf_02d_no_nul
          || rewrite printf_plus03d_no_nul
          || rewrite array_get_no_nul by reflexivity).
  reflexivity.
Qed.

Lemma get_svn_time_45 ck t :
  tm_in_range (localtime_r ck t) ->
  (-86400 <= timezone ck <= 86400)%Z ->
  (0 <= tm_year (localtime_r ck t) + 1900 <= 9999)%Z ->
  get_svn_time ck t 45 = (0%Z, svn_text ck t).
Proof.
  intros Htm Htz Hyear.
  pose proof (svn_text_length ck t Htm Htz) as Hlen.
  destruct (printf_d_length _ Hyear) as [Hle _].
  unfold get_svn_time, snprintf.
  destruct (Nat.leb_spec 45 (length (svn_text ck t))); [lia|].
  f_equal. apply firstn_all2. lia.
Qed.

(** X15: under the conditions of X13, and when [time(NULL)] does not fail,
    [svn_time] returns a character vector of one string, which is the whole
    formatted text, not cut short. *)
Theorem X15_svn_time_returns (ck : clock) :
  time_NULL ck <> (-1)%Z ->
  tm_in_range (localtime_r ck (time_NULL ck)) ->
  (-86400 <= timezone ck <= 86400)%Z ->
  (0 <= tm_year (localtime_r ck (time_NULL ck)) + 1900 <= 9999)%Z ->
  svn_time ck = inr [mkCharLen (svn_text ck (time_NULL ck))].
Proof.
  intros Ht Htm Htz Hyear. unfold svn_time.
  destruct (Z.eqb_spec (time_NULL ck) (-1)); [contradiction|].
  rewrite (get_svn_time_45 ck (time_NULL ck) Htm Htz Hyear). cbn [Z.eqb negb]. unfold mkString, mkChar.
  now rewrite until_nul_no_nul by apply svn_text_no_nul.
Qed.

Lemma X15_svn_time_returns_witness :
  svn_time clock_2007
  = inr [mkCharLen (svn_text clock_2007 (time_NULL clock_2007))].
Proof.
  apply (X15_svn_time_returns clock_2007).
  - discriminate.
  - unfold tm_in_range. simpl. lia.
  - simpl. lia.
  - simpl. lia.
Defined.

(** * Round trip over plain decimal tokens *)

(** X16: for every non-empty sequence of integers between 0 and [INT_MAX]
    and every separator character that is not a decimal digit, ['+'], ['-'],
    a blank (space or tab) or NUL, parsing the string that joins their
    decimal representations with the separator returns exactly that
    sequence for that element. *)
Theorem X16_round_trip (vs : list Z) (c : ascii) (g : globals) :
  vs <> [] ->
  Forall (fun v => (0 <= v <= INT_MAX)%Z) vs ->
  isdigit c = false -> c <> "+" -> c <> "-" ->
  isblank c = false -> c <> NUL ->
  strsplit [mkCharLen (join c (map decimal vs))] [mkCharLen [c]] g
  = Some (Rreturn [INTSXP vs]).
Proof.
  intros Hne Hvs Hd Hp Hm Hb Hn.
  rewrite strsplit_single by (apply good_sep; assumption).
  change (sep_char [mkCharLen [c]]) with c.
  set (items := map (fun v : Z => (([] : list ascii), v, ([] : list ascii))) vs).
  assert (Hr : map render_item items = map decimal vs).
  { unfold items. rewrite map_map. apply map_ext. intros v. simpl.
    apply app_nil_r. }
  assert (Hv : map item_value items = vs).
  { unfold items. rewrite map_map. simpl. apply map_id. }
  rewrite <- Hr, parse_string_join; auto using not_nul.
  - now rewrite Hv.
  - unfold items. destruct vs; [contradiction | discriminate].
  - unfold items. clear -Hvs. induction Hvs as [|v vs [H0 H1] _ IH]; [reflexivity|].
    cbn [map forallb item_ok]. rewrite IH.
    apply Z.leb_le in H0. apply Z.leb_le in H1. now rewrite H0, H1.
Qed.

Lemma X16_round_trip_witness :
  strsplit [mkCharLen (join "," (map decimal [0; 17; 2147483647]%Z))]
    [mkCharLen [","]] initial_globals
  = Some (Rreturn [INTSXP [0; 17; 2147483647]%Z]).
Proof.
  apply X16_round_trip.
  - discriminate.
  - repeat constructor; unfold INT_MAX; lia.
  - reflexivity.
  - discriminate.
  - discriminate.
  - reflexivity.
  - discriminate.
Defined.
